(** * PsycoPG: prepared-statement cache and textual adapters

    A shallow embedding of [psycopg/_preparing.py] (the [PrepareManager]
    of a connection) and of [psycopg3/types/string.py] (the dumpers and
    loaders of [str] and [bytes]), with the properties their
    specification states about them. *)

From Stdlib Require Import ZArith List String Ascii Bool Lia.
From Stdlib Require Import DecimalString DecimalZ.
Import ListNotations.

Local Open Scope string_scope.
Local Open Scope list_scope.
Local Open Scope Z_scope.

(** Python [bytes] used as names, queries and command tags: a string of
    8-bit characters. *)
Definition bytes := string.

(** ** [collections.OrderedDict]

    An association list in insertion order, first entry first, with at
    most one entry per key. *)

Section OrderedDict.

Context {K V : Type}.
Variable K_eq_dec : forall a b : K, {a = b} + {a <> b}.

Definition odict := list (K * V).

(** [d.get(k)] *)
Fixpoint od_get (k : K) (d : odict) : option V :=
  match d with
  | [] => None
  | (k', v) :: rest => if K_eq_dec k k' then Some v else od_get k rest
  end.

(** The entries of [d] other than the one of [k]. *)
Fixpoint od_remove (k : K) (d : odict) : odict :=
  match d with
  | [] => []
  | (k', v) :: rest =>
      if K_eq_dec k k' then od_remove k rest else (k', v) :: od_remove k rest
  end.

(** [d[k] = v]: an existing key keeps its position, a new one goes last. *)
Fixpoint od_set (k : K) (v : V) (d : odict) : odict :=
  match d with
  | [] => [(k, v)]
  | (k', v') :: rest =>
      if K_eq_dec k k' then (k', v) :: rest else (k', v') :: od_set k v rest
  end.

(** [del d[k]]: [None] stands for the [KeyError] of an absent key. *)
Definition od_del (k : K) (d : odict) : option odict :=
  match od_get k d with
  | Some _ => Some (od_remove k d)
  | None => None
  end.

(** [d.move_to_end(k)] for a key of [d] (Python raises [KeyError] for
    an absent one; the only call is guarded by [k in d]). *)
Definition od_move_to_end (k : K) (d : odict) : odict :=
  match od_get k d with
  | Some v => od_remove k d ++ [(k, v)]
  | None => d
  end.

(** [d.popitem(last=False)]: [None] stands for the [KeyError] of an
    empty dictionary. *)
Definition od_popitem_first (d : odict) : option ((K * V) * odict) :=
  match d with
  | [] => None
  | kv :: rest => Some (kv, rest)
  end.

(** [len(d)] *)
Definition od_len (d : odict) : Z := Z.of_nat (List.length d).

End OrderedDict.

(** ** [psycopg/_preparing.py] *)

(** [class Prepare(IntEnum)] *)
Inductive Prepare := NO | YES | SHOULD.

Definition Prepare_eqb (a b : Prepare) : bool :=
  match a, b with
  | NO, NO | YES, YES | SHOULD, SHOULD => true
  | _, _ => false
  end.

(** [Key = Tuple[bytes, Tuple[int, ...]]] *)
Definition Key : Type := bytes * list Z.

Definition Key_eq_dec (a b : Key) : {a = b} + {a <> b}.
Proof.
  decide equality; [apply (list_eq_dec Z.eq_dec) | apply string_dec].
Defined.
Arguments Key_eq_dec : simpl never.

(** [Value = Union[int, bytes]]: a tally of executions or a statement name. *)
Inductive Value :=
| VInt (n : Z)
| VBytes (name : bytes).

(** The part of [PostgresQuery] the manager reads. *)
Record PostgresQuery := mkQuery {
  query : bytes;
  types : list Z
}.

(** Modelled from the spec: the execution-outcome enumeration
    [pq.ExecStatus] of the protocol library, with the members of libpq. *)
Inductive ExecStatus :=
| EMPTY_QUERY | COMMAND_OK | TUPLES_OK | COPY_OUT | COPY_IN | BAD_RESPONSE
| NONFATAL_ERROR | FATAL_ERROR | COPY_BOTH | SINGLE_TUPLE
| PIPELINE_SYNC | PIPELINE_ABORTED.

Definition ExecStatus_eqb (a b : ExecStatus) : bool :=
  match a, b with
  | EMPTY_QUERY, EMPTY_QUERY | COMMAND_OK, COMMAND_OK | TUPLES_OK, TUPLES_OK
  | COPY_OUT, COPY_OUT | COPY_IN, COPY_IN | BAD_RESPONSE, BAD_RESPONSE
  | NONFATAL_ERROR, NONFATAL_ERROR | FATAL_ERROR, FATAL_ERROR
  | COPY_BOTH, COPY_BOTH | SINGLE_TUPLE, SINGLE_TUPLE
  | PIPELINE_SYNC, PIPELINE_SYNC | PIPELINE_ABORTED, PIPELINE_ABORTED => true
  | _, _ => false
  end.

(** The part of [PGresult] the manager reads. *)
Record PGresult := mkResult {
  status : ExecStatus;
  command_status : option bytes
}.

(** What a method call does besides changing the manager: it returns a
    value or raises [KeyError]. *)
Inductive outcome (A : Type) :=
| Return (a : A)
| RaiseKeyError.
Arguments Return {A} a.
Arguments RaiseKeyError {A}.

(** The attributes of a [PrepareManager]. *)
Record PrepareManager := mkManager {
  prepare_threshold : option Z;
  prepared_max : Z;
  _prepared : list (Key * Value);
  _prepared_idx : Z
}.

Definition set_prepared (d : list (Key * Value)) (self : PrepareManager) :=
  mkManager (prepare_threshold self) (prepared_max self) d (_prepared_idx self).

Definition set_prepared_idx (i : Z) (self : PrepareManager) :=
  mkManager (prepare_threshold self) (prepared_max self) (_prepared self) i.

(** [PrepareManager()] with the class attributes given. *)
Definition new_manager (threshold : option Z) (max : Z) : PrepareManager :=
  mkManager threshold max [] 0.

(** [PrepareManager.key] *)
Definition key (q : PostgresQuery) : Key := (query q, types q).

(** [str(i)] of a Python integer. *)
Definition decimal (i : Z) : string := NilEmpty.string_of_int (Z.to_int i).

(** [f"_pg3_{idx}".encode()] *)
Definition statement_name (idx : Z) : bytes := ("_pg3_" ++ decimal idx)%string.
Arguments statement_name : simpl never.

(** Truth value of an [Optional[bytes]]. *)
Definition truthy (b : option bytes) : bool :=
  match b with
  | Some s => negb (String.eqb s "")
  | None => false
  end.

(** [PrepareManager.get] *)
Definition get (self : PrepareManager) (q : PostgresQuery)
    (prepare : option bool) : PrepareManager * (Prepare * bytes) :=
  match prepare, prepare_threshold self with
  | Some false, _ => (self, (NO, ""))
  | _, None => (self, (NO, ""))
  | _, Some threshold =>
      match od_get Key_eq_dec (key q) (_prepared self) with
      | Some (VBytes name) => (self, (YES, name))
      | found =>
          let value := match found with Some (VInt n) => n | _ => 0 end in
          if (value >=? threshold) || (match prepare with Some b => b | None => false end)
          then
            let name := statement_name (_prepared_idx self) in
            (set_prepared_idx (_prepared_idx self + 1) self, (SHOULD, name))
          else (self, (NO, ""))
      end
  end.

(** [PrepareManager.clear] *)
Definition clear (self : PrepareManager) : PrepareManager * option bytes :=
  if _prepared_idx self =? 0 then (self, None)
  else (set_prepared_idx 0 (set_prepared [] self), Some "DEALLOCATE ALL").

(** The test of [_should_discard] on the command tag of a result. *)
Definition discard_tag (cmdstat : option bytes) : bool :=
  match cmdstat with
  | Some s => negb (String.eqb s "")
              && (String.prefix "DROP " s || String.eqb s "ROLLBACK")
  | None => false
  end.

(** The loop of [_should_discard] over the results. *)
Fixpoint discard_loop (self : PrepareManager) (results : list PGresult)
    : PrepareManager * option bytes :=
  match results with
  | [] => (self, None)
  | result :: rest =>
      if negb (ExecStatus_eqb (status result) COMMAND_OK)
      then discard_loop self rest
      else if discard_tag (command_status result) then clear self
      else discard_loop self rest
  end.

(** [PrepareManager._should_discard] *)
Definition _should_discard (self : PrepareManager) (prep : Prepare)
    (results : list PGresult) : PrepareManager * option bytes :=
  if negb (Z.of_nat (List.length (_prepared self)) =? 0) || Prepare_eqb prep SHOULD
  then discard_loop self results
  else (self, None).

(** [PrepareManager._check_results] *)
Definition _check_results (results : list PGresult) : bool :=
  match results with
  | [r] =>
      if negb (ExecStatus_eqb COMMAND_OK (status r))
         && negb (ExecStatus_eqb (status r) TUPLES_OK)
      then false else true
  | _ => false
  end.

(** [PrepareManager._rotate] *)
Definition _rotate (self : PrepareManager)
    : PrepareManager * outcome (option bytes) :=
  if od_len (_prepared self) <=? prepared_max self then (self, Return None)
  else
    match od_popitem_first (_prepared self) with
    | None => (self, RaiseKeyError)
    | Some ((_, old_val), rest) =>
        (set_prepared rest self,
         Return (match old_val with
                 | VBytes name => Some ("DEALLOCATE " ++ name)%string
                 | VInt _ => None
                 end))
    end.

(** [PrepareManager.maybe_add_to_cache] *)
Definition maybe_add_to_cache (self : PrepareManager) (q : PostgresQuery)
    (prep : Prepare) (name : bytes) : PrepareManager * option Key :=
  match prepare_threshold self with
  | None => (self, None)
  | Some _ =>
      let k := key q in
      match od_get Key_eq_dec k (_prepared self) with
      | Some found =>
          let d :=
            match found with
            | VInt n =>
                if Prepare_eqb prep SHOULD
                then od_set Key_eq_dec k (VBytes name) (_prepared self)
                else od_set Key_eq_dec k (VInt (n + 1)) (_prepared self)
            | VBytes _ => _prepared self
            end in
          (set_prepared (od_move_to_end Key_eq_dec k d) self, None)
      | None =>
          let value := if Prepare_eqb prep SHOULD then VBytes name else VInt 1 in
          (set_prepared (od_set Key_eq_dec k value (_prepared self)) self, Some k)
      end
  end.

(** [PrepareManager.validate] *)
Definition validate (self : PrepareManager) (k : Key) (prep : Prepare)
    (name : bytes) (results : list PGresult)
    : PrepareManager * outcome (option bytes) :=
  let '(self1, cmd) := _should_discard self prep results in
  if truthy cmd then (self1, Return cmd)
  else if negb (_check_results results) then
    match od_del Key_eq_dec k (_prepared self1) with
    | Some d => (set_prepared d self1, Return None)
    | None => (self1, RaiseKeyError)
    end
  else _rotate self1.

(** ** Runs of manager calls *)

(** One statement of a pipeline whose result is not awaited: the decision
    of [get] is recorded with [maybe_add_to_cache] at once. *)
Definition decide_and_record (self : PrepareManager) (q : PostgresQuery)
    (prepare : option bool) : PrepareManager * (Prepare * bytes) :=
  let '(self1, (prep, name)) := get self q prepare in
  (fst (maybe_add_to_cache self1 q prep name), (prep, name)).

(** The decisions about [k] among those of a run of such statements. *)
Fixpoint decisions_for (k : Key) (self : PrepareManager)
    (stmts : list (PostgresQuery * option bool)) : list (Prepare * bytes) :=
  match stmts with
  | [] => []
  | (q, prepare) :: rest =>
      let '(self1, d) := decide_and_record self q prepare in
      if Key_eq_dec (key q) k
      then d :: decisions_for k self1 rest
      else decisions_for k self1 rest
  end.

(** How many statements of a run are about [k]. *)
Definition about (k : Key) (stmts : list (PostgresQuery * option bool)) : nat :=
  List.length
    (filter (fun s => if Key_eq_dec (key (fst s)) k then true else false) stmts).

(** The decisions expected of [n] statements on one fingerprint when
    [skipped] of them are left unprepared before the one that is
    prepared as [name]. *)
Fixpoint promotion_schedule (skipped : nat) (name : bytes) (n : nat) {struct n}
    : list (Prepare * bytes) :=
  match n with
  | O => []
  | S n' =>
      match skipped with
      | O => (SHOULD, name) :: repeat (YES, name) n'
      | S skipped' => (NO, "") :: promotion_schedule skipped' name n'
      end
  end.

(** The decisions about [key q] follow the schedule with [skipped]. *)
Definition promoted_after (skipped : nat) (self : PrepareManager)
    (q : PostgresQuery) (stmts : list (PostgresQuery * option bool)) : Prop :=
  exists idx,
    decisions_for (key q) self stmts
    = promotion_schedule skipped (statement_name idx) (about (key q) stmts).

(** A statement whose result is read before the next one is sent:
    [maybe_add_to_cache], then [validate] on the same key. *)
Record exchange := mkExchange {
  ex_query : PostgresQuery;
  ex_prep : Prepare;
  ex_name : bytes;
  ex_results : list PGresult
}.

Definition record_then_validate (self : PrepareManager) (e : exchange)
    : PrepareManager :=
  let self1 := fst (maybe_add_to_cache self (ex_query e) (ex_prep e) (ex_name e)) in
  fst (validate self1 (key (ex_query e)) (ex_prep e) (ex_name e) (ex_results e)).

(** The calls a connection makes on its manager. *)
Inductive call :=
| CallGet (q : PostgresQuery) (prepare : option bool)
| CallAdd (q : PostgresQuery) (prep : Prepare) (name : bytes)
| CallValidate (k : Key) (prep : Prepare) (name : bytes) (results : list PGresult)
| CallClear.

Definition is_some {A} (o : option A) : bool :=
  match o with Some _ => true | None => false end.

Definition run_call (self : PrepareManager) (c : call) : PrepareManager :=
  match c with
  | CallGet q prepare => fst (get self q prepare)
  | CallAdd q prep name => fst (maybe_add_to_cache self q prep name)
  | CallValidate k prep name results => fst (validate self k prep name results)
  | CallClear => fst (clear self)
  end.

Definition run_calls (self : PrepareManager) (cs : list call) : PrepareManager :=
  fold_left run_call cs self.

(** Whether the call wipes the cache and the counter, by [clear] itself
    or through [_should_discard]. *)
Definition call_wipes (self : PrepareManager) (c : call) : bool :=
  match c with
  | CallValidate k prep name results =>
      is_some (snd (_should_discard self prep results))
  | CallClear => is_some (snd (clear self))
  | _ => false
  end.

Fixpoint calls_wipe (self : PrepareManager) (cs : list call) : bool :=
  match cs with
  | [] => false
  | c :: rest => call_wipes self c || calls_wipe (run_call self c) rest
  end.

(** A result that makes [_should_discard] wipe the state. *)
Definition discard_trigger (r : PGresult) : bool :=
  ExecStatus_eqb (status r) COMMAND_OK && discard_tag (command_status r).

(** The tally the manager holds for [k]: an absent key counts as 0. *)
Definition pending (self : PrepareManager) (k : Key) (c : Z) : Prop :=
  od_get Key_eq_dec k (_prepared self) = Some (VInt c)
  \/ (c = 0 /\ od_get Key_eq_dec k (_prepared self) = None).

(** No statement about [k] asks for or against preparation. *)
Definition unforced (k : Key) (stmts : list (PostgresQuery * option bool)) : Prop :=
  Forall (fun s => key (fst s) = k -> snd s = None) stmts.

(** The states of a manager in use: decisions of [get] are recorded with
    [maybe_add_to_cache]; results are validated; the manager is cleared. *)
Inductive reachable : PrepareManager -> Prop :=
| reach_new threshold max : reachable (new_manager threshold max)
| reach_decide self q prepare :
    reachable self -> reachable (fst (decide_and_record self q prepare))
| reach_get self q prepare :
    reachable self -> reachable (fst (get self q prepare))
| reach_validate self k prep name results :
    reachable self -> reachable (fst (validate self k prep name results))
| reach_clear self :
    reachable self -> reachable (fst (clear self)).

(** Whether the cache holds a statement name. *)
Definition holds_name (self : PrepareManager) : bool :=
  existsb (fun kv => match snd kv with VBytes _ => true | VInt _ => false end)
          (_prepared self).

(** An entry that holds a tally, not a name. *)
Definition is_tally (kv : Key * Value) : Prop :=
  match snd kv with VInt _ => True | VBytes _ => False end.

(** Two statements used in the examples. *)
Definition q_select1 : PostgresQuery := mkQuery "select 1" [].
Definition q_select2 : PostgresQuery := mkQuery "select 2" [23].
Definition q_select3 : PostgresQuery := mkQuery "select 3" [].

(** ** Python text and its codecs *)

(** A Python [str]: its code points, each in [0, 0x10FFFF]; lone
    surrogates can occur. *)
Definition str := list Z.

Inductive PyError :=
| DataError
| UnicodeEncodeError
| UnicodeDecodeError
| LookupError.

Inductive result (A : Type) :=
| Ok (a : A)
| Raise (e : PyError).
Arguments Ok {A} a.
Arguments Raise {A} e.

Definition Z_of_byte (a : ascii) : Z := Z.of_N (N_of_ascii a).
Definition byte_of_Z (z : Z) : ascii := ascii_of_N (Z.to_N z).

Fixpoint bytes_of_list (l : list Z) : bytes :=
  match l with
  | [] => EmptyString
  | z :: rest => String (byte_of_Z z) (bytes_of_list rest)
  end.

Definition is_surrogate (c : Z) : bool := (0xD800 <=? c) && (c <=? 0xDFFF).

(** A Unicode scalar value: a code point that is not a surrogate. *)
Definition is_scalar (c : Z) : bool :=
  (0 <=? c) && (c <? 0x110000) && negb (is_surrogate c).

(** The UTF-8 bytes of one code point. *)
Definition utf8_encode_char (c : Z) : option (list Z) :=
  if c <? 0 then None
  else if c <? 0x80 then Some [c]
  else if c <? 0x800 then Some [0xC0 + c / 64; 0x80 + c mod 64]
  else if c <? 0x10000 then
    if is_surrogate c then None
    else Some [0xE0 + c / 4096; 0x80 + (c / 64) mod 64; 0x80 + c mod 64]
  else if c <? 0x110000 then
    Some [0xF0 + c / 262144; 0x80 + (c / 4096) mod 64;
          0x80 + (c / 64) mod 64; 0x80 + c mod 64]
  else None.

(** [s.encode("utf-8")]; [None] stands for [UnicodeEncodeError]. *)
Fixpoint utf8_encode (s : str) : option bytes :=
  match s with
  | [] => Some EmptyString
  | c :: rest =>
      match utf8_encode_char c, utf8_encode rest with
      | Some l, Some b => Some (bytes_of_list l ++ b)%string
      | _, _ => None
      end
  end.

Definition is_cont (b : Z) : bool := (0x80 <=? b) && (b <? 0xC0).

(** [b.decode("utf-8")]: the strict decoder, which refuses overlong forms,
    surrogates and values above 0x10FFFF; [None] stands for
    [UnicodeDecodeError]. *)
Fixpoint utf8_decode (b : bytes) : option str :=
  match b with
  | EmptyString => Some []
  | String a0 r0 =>
      let b0 := Z_of_byte a0 in
      if b0 <? 0x80 then option_map (cons b0) (utf8_decode r0)
      else if b0 <? 0xC2 then None
      else if b0 <? 0xE0 then
        match r0 with
        | String a1 r1 =>
            let b1 := Z_of_byte a1 in
            if is_cont b1
            then option_map (cons ((b0 - 0xC0) * 64 + (b1 - 0x80))) (utf8_decode r1)
            else None
        | _ => None
        end
      else if b0 <? 0xF0 then
        match r0 with
        | String a1 (String a2 r2) =>
            let b1 := Z_of_byte a1 in
            let b2 := Z_of_byte a2 in
            let c := (b0 - 0xE0) * 4096 + (b1 - 0x80) * 64 + (b2 - 0x80) in
            if is_cont b1 && is_cont b2 && (0x800 <=? c) && negb (is_surrogate c)
            then option_map (cons c) (utf8_decode r2)
            else None
        | _ => None
        end
      else if b0 <? 0xF5 then
        match r0 with
        | String a1 (String a2 (String a3 r3)) =>
            let b1 := Z_of_byte a1 in
            let b2 := Z_of_byte a2 in
            let b3 := Z_of_byte a3 in
            let c := (b0 - 0xF0) * 262144 + (b1 - 0x80) * 4096
                     + (b2 - 0x80) * 64 + (b3 - 0x80) in
            if is_cont b1 && is_cont b2 && is_cont b3
               && (0x10000 <=? c) && (c <? 0x110000)
            then option_map (cons c) (utf8_decode r3)
            else None
        | _ => None
        end
      else None
  end.

(** [s.encode("ascii")] and [b.decode("ascii")] *)
Fixpoint ascii_encode (s : str) : option bytes :=
  match s with
  | [] => Some EmptyString
  | c :: rest =>
      if (0 <=? c) && (c <? 0x80)
      then option_map (String (byte_of_Z c)) (ascii_encode rest)
      else None
  end.

Fixpoint ascii_decode (b : bytes) : option str :=
  match b with
  | EmptyString => Some []
  | String a rest =>
      if Z_of_byte a <? 0x80
      then option_map (cons (Z_of_byte a)) (ascii_decode rest)
      else None
  end.

(** [s.encode("latin-1")] and [b.decode("latin-1")] *)
Fixpoint latin1_encode (s : str) : option bytes :=
  match s with
  | [] => Some EmptyString
  | c :: rest =>
      if (0 <=? c) && (c <? 0x100)
      then option_map (String (byte_of_Z c)) (latin1_encode rest)
      else None
  end.

Fixpoint latin1_decode (b : bytes) : option str :=
  match b with
  | EmptyString => Some []
  | String a rest => option_map (cons (Z_of_byte a)) (latin1_decode rest)
  end.

(** A codec of the Python runtime, with the [strict] error handler:
    [None] stands for [UnicodeEncodeError] and [UnicodeDecodeError]. *)
Record Codec := mkCodec {
  codec_encode : str -> option bytes;
  codec_decode : bytes -> option str
}.

Definition utf8_codec : Codec := mkCodec utf8_encode utf8_decode.
Definition ascii_codec : Codec := mkCodec ascii_encode ascii_decode.
Definition latin1_codec : Codec := mkCodec latin1_encode latin1_decode.

(** The codecs that the runtime finds for the names not resolved here
    (cp1252, euc_jp, ...): what [codecs.lookup] returns for the name,
    [None] when it raises [LookupError]. *)
Definition PythonCodecs := string -> option Codec.

(** A runtime with no codec besides those written out here. *)
Definition no_more_codecs : PythonCodecs := fun _ => None.

Definition between (lo hi : N) (a : ascii) : bool :=
  (lo <=? N_of_ascii a)%N && (N_of_ascii a <=? hi)%N.

(** [c.isalnum() or c == '.'] for an ASCII character. *)
Definition is_name_char (a : ascii) : bool :=
  between 48 57 a || between 65 90 a || between 97 122 a || between 46 46 a.

Definition is_ascii_char (a : ascii) : bool := (N_of_ascii a <? 128)%N.

(** The lower case of an ASCII character. *)
Definition lower (a : ascii) : ascii :=
  if between 65 90 a then ascii_of_N (N_of_ascii a + 32) else a.

Fixpoint string_forallb (f : ascii -> bool) (s : string) : bool :=
  match s with
  | EmptyString => true
  | String a rest => f a && string_forallb f rest
  end.

(** The loop of [encodings.normalize_encoding] on a name in lower case:
    [punct] as in the source, [started] for a non-empty [chars]. *)
Fixpoint normalize_from (punct started : bool) (s : string) : string :=
  match s with
  | EmptyString => EmptyString
  | String c rest =>
      if is_name_char c then
        let tail := String (lower c) (normalize_from false true rest) in
        if punct && started then String "_" tail else tail
      else normalize_from true started rest
  end.

(** The name as the codec registry looks it up: in lower case, every run
    of characters other than letters, digits and '.' collapsed to one
    '_', none at either end. *)
Definition normalize_encoding (encoding : string) : string :=
  normalize_from false false encoding.

Fixpoint dots_to_underscores (s : string) : string :=
  match s with
  | EmptyString => EmptyString
  | String c rest =>
      String (if between 46 46 c then "_"%char else c) (dots_to_underscores rest)
  end.

Definition name_in (name : string) (names : list string) : bool :=
  existsb (String.eqb name) names.

(** The entries of [encodings.aliases] for the three codecs. *)
Definition utf8_aliases : list string :=
  ["u8"; "utf"; "utf8"; "utf8_ucs2"; "utf8_ucs4"; "cp65001"].

Definition ascii_aliases : list string :=
  ["646"; "ansi_x3.4_1968"; "ansi_x3_4_1968"; "ansi_x3.4_1986"; "cp367";
   "csascii"; "ibm367"; "iso646_us"; "iso_646.irv_1991"; "iso_ir_6"; "us";
   "us_ascii"].

Definition latin1_aliases : list string :=
  ["8859"; "cp819"; "csisolatin1"; "ibm819"; "iso8859"; "iso8859_1";
   "iso_8859_1"; "iso_8859_1_1987"; "iso_ir_100"; "l1"; "latin"; "latin1"].

(** A normalized name is the module of the codec or one of its aliases,
    looked up as it is and with '.' replaced by '_'. *)
Definition names_codec (name module : string) (aliases : list string) : bool :=
  String.eqb name module
  || name_in name aliases
  || name_in (dots_to_underscores name) aliases.

(** [codecs.lookup(encoding)]: UTF-8, ASCII and Latin-1 under all their
    names; every other name, and every name with a character that is not
    ASCII, is left to the codecs of the runtime. *)
Definition lookup_codec (py : PythonCodecs) (encoding : string) : option Codec :=
  if string_forallb is_ascii_char encoding then
    let name := normalize_encoding encoding in
    if names_codec name "utf_8" utf8_aliases then Some utf8_codec
    else if names_codec name "ascii" ascii_aliases then Some ascii_codec
    else if names_codec name "latin_1" latin1_aliases then Some latin1_codec
    else py encoding
  else py encoding.

(** [obj.encode(encoding)] *)
Definition str_encode (py : PythonCodecs) (obj : str) (encoding : string)
    : result bytes :=
  match lookup_codec py encoding with
  | None => Raise LookupError
  | Some c =>
      match codec_encode c obj with
      | Some b => Ok b
      | None => Raise UnicodeEncodeError
      end
  end.

(** [data.decode(encoding)] *)
Definition bytes_decode (py : PythonCodecs) (data : bytes) (encoding : string)
    : result str :=
  match lookup_codec py encoding with
  | None => Raise LookupError
  | Some c =>
      match codec_decode c data with
      | Some s => Ok s
      | None => Raise UnicodeDecodeError
      end
  end.

(** ** [psycopg3/types/string.py] *)

(** The connection of an adaptation context, as far as the adapters read
    it. *)
Record Connection := mkConnection {
  client_encoding : string
}.

(** [adapt.Buffer = Union[bytes, bytearray, memoryview]] *)
Inductive BufferKind := KBytes | KBytearray | KMemoryview.

Record Buffer := mkBuffer {
  buf_kind : BufferKind;
  buf_data : bytes
}.

(** What a text loader returns: [Union[bytes, str]], the bytes being the
    buffer it was given. *)
Inductive Loaded :=
| LStr (s : str)
| LRaw (data : Buffer).

Module _StrDumper.

(** The dumper's [_encoding]. *)
Record t := mk { _encoding : string }.

(** [_StrDumper.__init__], from the connection of the context. *)
Definition __init__ (conn : option Connection) : t :=
  match conn with
  | Some c =>
      let enc := client_encoding c in
      if negb (String.eqb enc "ascii") then mk enc else mk "utf-8"
  | None => mk "utf-8"
  end.

End _StrDumper.

Module StrBinaryDumper.

(** [StrBinaryDumper.dump] *)
Definition dump (py : PythonCodecs) (self : _StrDumper.t) (obj : str)
    : result bytes :=
  str_encode py obj (_StrDumper._encoding self).

End StrBinaryDumper.

Module StrDumper.

(** [StrDumper.dump]; ["\x00" in obj] is the presence of code point 0. *)
Definition dump (py : PythonCodecs) (self : _StrDumper.t) (obj : str)
    : result bytes :=
  if existsb (Z.eqb 0) obj then Raise DataError
  else str_encode py obj (_StrDumper._encoding self).

End StrDumper.

Module TextLoader.

Record t := mk { _encoding : string }.

(** [TextLoader.__init__] *)
Definition __init__ (conn : option Connection) : t :=
  match conn with
  | Some c =>
      let enc := client_encoding c in
      mk (if negb (String.eqb enc "ascii") then enc else "")
  | None => mk "utf-8"
  end.

(** [TextLoader.load] *)
Definition load (py : PythonCodecs) (self : t) (data : Buffer)
    : result Loaded :=
  if negb (String.eqb (_encoding self) "") then
    let decoded :=
      match buf_kind data with
      | KMemoryview => bytes_decode py (buf_data data) (_encoding self)
      | _ => bytes_decode py (buf_data data) (_encoding self)
      end in
    match decoded with
    | Ok s => Ok (LStr s)
    | Raise e => Raise e
    end
  else Ok (LRaw data).

End TextLoader.

(** [class TextBinaryLoader(TextLoader)]: only the format differs. *)
Module TextBinaryLoader.

Definition t := TextLoader.t.
Definition __init__ := TextLoader.__init__.
Definition load := TextLoader.load.

End TextBinaryLoader.

Module BytesBinaryDumper.

(** [BytesBinaryDumper.dump] *)
Definition dump (obj : Buffer) : Buffer := obj.

End BytesBinaryDumper.

Module ByteaBinaryLoader.

(** [ByteaBinaryLoader.load] *)
Definition load (data : Buffer) : Buffer := data.

End ByteaBinaryLoader.

(** "abc\x00def" *)
Definition abc_nul_def : str := [97; 98; 99; 0; 100; 101; 102].

(** ** More on runs of manager calls *)

(** No two entries of the cache have the same key. *)
Definition keys_unique (self : PrepareManager) : Prop :=
  NoDup (map fst (_prepared self)).

(** Calls that decide and record, without validating or clearing. *)
Definition is_decision (c : call) : bool :=
  match c with
  | CallGet _ _ | CallAdd _ _ _ => true
  | _ => false
  end.

(** The names held by the cache are names that the counter has passed,
    each held by one key only. *)
Definition names_sound (self : PrepareManager) : Prop :=
  0 <= _prepared_idx self
  /\ (forall k n,
        od_get Key_eq_dec k (_prepared self) = Some (VBytes n) ->
        exists i, 0 <= i < _prepared_idx self /\ n = statement_name i)
  /\ (forall k1 k2 n,
        od_get Key_eq_dec k1 (_prepared self) = Some (VBytes n) ->
        od_get Key_eq_dec k2 (_prepared self) = Some (VBytes n) ->
        k1 = k2).

(** The names of one cache are among those of another, under the same
    keys. *)
Definition names_among (d' d : list (Key * Value)) : Prop :=
  forall k n,
    od_get Key_eq_dec k d' = Some (VBytes n) ->
    od_get Key_eq_dec k d = Some (VBytes n).

(** The bytes as numbers. *)
Fixpoint list_of_bytes (b : bytes) : list Z :=
  match b with
  | EmptyString => []
  | String a rest => Z_of_byte a :: list_of_bytes rest
  end.

(** ** [tests/fix_faker.py] *)

Module Faker.

(** [Faker.str_max_length] *)
Definition str_max_length : Z := 100.

(** The test of [make_str] on a candidate code point. *)
Definition skipped (c : Z) : bool :=
  ((0xD800 <=? c) && (c <=? 0xDBFF)) || ((0xDC00 <=? c) && (c <=? 0xDFFF)).

(** The loop of [make_str].  [draws] are the values that [randrange]
    returns for [c], one per iteration, each from [randrange(1, 128)] or
    [randrange(1, 0x110000)]; [None] when they run out before the loop
    ends. *)
Fixpoint make_str_loop (draws : list Z) (length : Z) (rv : list Z)
    : option (list Z) :=
  if Z.of_nat (List.length rv) <? length then
    match draws with
    | [] => None
    | c :: rest =>
        make_str_loop rest length (if negb (skipped c) then rv ++ [c] else rv)
    end
  else Some rv.

(** [Faker.make_str]: [drawn] is the value of
    [randrange(self.str_max_length)], used when [length] is 0; the string
    returned is given by its code points. *)
Definition make_str (length : Z) (drawn : Z) (draws : list Z) : option str :=
  let length := if length =? 0 then drawn else length in
  make_str_loop draws length [].

(** What [randrange(1, 128)] and [randrange(1, 0x110000)] can return. *)
Definition drawable (c : Z) : Prop := 1 <= c < 0x110000.

(** How many of the draws the loop keeps. *)
Definition kept (draws : list Z) : Z :=
  Z.of_nat (List.length (filter (fun c => negb (skipped c)) draws)).

End Faker.

(** * Properties *)

(** ** The ordered dictionary *)

Section OrderedDictFacts.

Context {K V : Type}.
Variable K_eq_dec : forall a b : K, {a = b} + {a <> b}.

Implicit Types (k : K) (v : V) (d : list (K * V)).

Lemma od_get_set_same k v d :
  od_get K_eq_dec k (od_set K_eq_dec k v d) = Some v.
Proof.
  induction d as [|[k' v'] d IH]; simpl.
  - destruct (K_eq_dec k k); congruence.
  - destruct (K_eq_dec k k') as [E|E]; simpl.
    + destruct (K_eq_dec k k'); congruence.
    + destruct (K_eq_dec k k'); congruence.
Qed.

Lemma od_get_set_other (k k' : K) v d :
  k <> k' -> od_get K_eq_dec k (od_set K_eq_dec k' v d) = od_get K_eq_dec k d.
Proof.
  intros N. induction d as [|[k2 v2] d IH]; simpl.
  - destruct (K_eq_dec k k'); congruence.
  - destruct (K_eq_dec k' k2) as [E|E]; simpl.
    + subst k2. destruct (K_eq_dec k k'); congruence.
    + destruct (K_eq_dec k k2); congruence.
Qed.

Lemma od_get_remove_same k d : od_get K_eq_dec k (od_remove K_eq_dec k d) = None.
Proof.
  induction d as [|[k' v'] d IH]; simpl; trivial.
  destruct (K_eq_dec k k') as [E|E]; simpl; trivial.
  destruct (K_eq_dec k k'); congruence.
Qed.

Lemma od_get_remove_other (k k' : K) d :
  k <> k' -> od_get K_eq_dec k (od_remove K_eq_dec k' d) = od_get K_eq_dec k d.
Proof.
  intros N. induction d as [|[k2 v2] d IH]; simpl; trivial.
  destruct (K_eq_dec k' k2) as [E|E]; simpl.
  - subst k2. destruct (K_eq_dec k k'); congruence.
  - destruct (K_eq_dec k k2); congruence.
Qed.

Lemma od_get_app k (d1 d2 : list (K * V)) :
  od_get K_eq_dec k (d1 ++ d2) = match od_get K_eq_dec k d1 with Some v => Some v | None => od_get K_eq_dec k d2 end.
Proof.
  induction d1 as [|[k' v'] d1 IH]; simpl; trivial.
  destruct (K_eq_dec k k'); trivial.
Qed.

Lemma od_get_move_to_end (k k' : K) d :
  od_get K_eq_dec k (od_move_to_end K_eq_dec k' d) = od_get K_eq_dec k d.
Proof.
  unfold od_move_to_end. destruct (od_get K_eq_dec k' d) as [v|] eqn:G; trivial.
  rewrite od_get_app. destruct (K_eq_dec k k') as [E|E].
  - subst k'. rewrite od_get_remove_same. simpl.
    destruct (K_eq_dec k k); congruence.
  - rewrite od_get_remove_other by assumption.
    destruct (od_get K_eq_dec k d); trivial. simpl.
    destruct (K_eq_dec k k'); congruence.
Qed.

(** Writing to an absent key appends the entry. *)
Lemma od_set_absent k v d :
  od_get K_eq_dec k d = None -> od_set K_eq_dec k v d = d ++ [(k, v)].
Proof.
  induction d as [|[k' v'] d IH]; simpl; trivial.
  destruct (K_eq_dec k k'); [discriminate|].
  intros G. now rewrite IH.
Qed.

Lemma od_remove_length k d :
  (List.length (od_remove K_eq_dec k d) <= List.length d)%nat.
Proof.
  induction d as [|[k' v'] d IH]; simpl; trivial.
  destruct (K_eq_dec k k'); simpl; lia.
Qed.

Lemma od_remove_length_present k d v :
  od_get K_eq_dec k d = Some v -> (S (List.length (od_remove K_eq_dec k d)) <= List.length d)%nat.
Proof.
  induction d as [|[k' v'] d IH]; simpl; [discriminate|].
  destruct (K_eq_dec k k'); simpl; intros G.
  - pose proof (od_remove_length k d). lia.
  - apply IH in G. lia.
Qed.

Lemma od_set_length k v d :
  List.length (od_set K_eq_dec k v d)
  = match od_get K_eq_dec k d with Some _ => List.length d | None => S (List.length d) end.
Proof.
  induction d as [|[k' v'] d IH]; simpl; trivial.
  destruct (K_eq_dec k k'); simpl; trivial.
  rewrite IH. destruct (od_get K_eq_dec k d); trivial.
Qed.

Lemma od_move_to_end_length k d :
  (List.length (od_move_to_end K_eq_dec k d) <= List.length d)%nat.
Proof.
  unfold od_move_to_end. destruct (od_get K_eq_dec k d) as [v|] eqn:G; trivial.
  rewrite length_app. simpl.
  pose proof (od_remove_length_present k d v G). lia.
Qed.

Lemma od_remove_absent k d :
  od_get K_eq_dec k d = None -> od_remove K_eq_dec k d = d.
Proof.
  induction d as [|[k' v'] d IH]; simpl; trivial.
  destruct (K_eq_dec k k'); [discriminate|]. intros G. now rewrite IH.
Qed.

(** Removing a key keeps the other entries, in their order. *)
Lemma od_remove_filter k d :
  od_remove K_eq_dec k d
  = filter (fun kv => if K_eq_dec k (fst kv) then false else true) d.
Proof.
  induction d as [|[k' v'] d IH]; simpl; trivial.
  destruct (K_eq_dec k k'); simpl; now rewrite IH.
Qed.

Lemma od_remove_set k v d :
  od_remove K_eq_dec k (od_set K_eq_dec k v d) = od_remove K_eq_dec k d.
Proof.
  induction d as [|[k' v'] d IH]; simpl.
  - destruct (K_eq_dec k k); congruence.
  - destruct (K_eq_dec k k') as [E|E]; simpl.
    + destruct (K_eq_dec k k'); congruence.
    + destruct (K_eq_dec k k'); [contradiction|]. now rewrite IH.
Qed.

End OrderedDictFacts.

(** ** Promotion of a repeated statement *)

Lemma Prepare_eqb_eq (a b : Prepare) : Prepare_eqb a b = true <-> a = b.
Proof. destruct a, b; simpl; split; congruence. Qed.

Lemma get_keeps_config self q prepare :
  prepare_threshold (fst (get self q prepare)) = prepare_threshold self
  /\ prepared_max (fst (get self q prepare)) = prepared_max self
  /\ _prepared (fst (get self q prepare)) = _prepared self.
Proof.
  unfold get.
  destruct prepare as [[|]|], (prepare_threshold self) as [t|] eqn:T; simpl; auto;
    destruct (od_get Key_eq_dec (key q) (_prepared self)) as [[n|nm]|]; simpl; auto;
    match goal with |- context [if ?b then _ else _] => destruct b end; simpl; auto.
Qed.

Lemma maybe_add_keeps_config self q prep name :
  prepare_threshold (fst (maybe_add_to_cache self q prep name)) = prepare_threshold self
  /\ prepared_max (fst (maybe_add_to_cache self q prep name)) = prepared_max self
  /\ _prepared_idx (fst (maybe_add_to_cache self q prep name)) = _prepared_idx self.
Proof.
  unfold maybe_add_to_cache.
  destruct (prepare_threshold self) eqn:T; simpl; auto.
  destruct (od_get Key_eq_dec (key q) (_prepared self)); simpl; auto.
Qed.

(** [maybe_add_to_cache] leaves the entries of other keys alone. *)
Lemma maybe_add_other self q prep name k :
  key q <> k ->
  od_get Key_eq_dec k (_prepared (fst (maybe_add_to_cache self q prep name)))
  = od_get Key_eq_dec k (_prepared self).
Proof.
  intros N. unfold maybe_add_to_cache.
  destruct (prepare_threshold self); simpl; trivial.
  destruct (od_get Key_eq_dec (key q) (_prepared self)) as [[n|nm]|]; simpl.
  - rewrite od_get_move_to_end.
    destruct (Prepare_eqb prep SHOULD); apply od_get_set_other; congruence.
  - apply od_get_move_to_end.
  - apply od_get_set_other; congruence.
Qed.

(** What [maybe_add_to_cache] leaves under the key of its statement. *)
Lemma maybe_add_same self q prep name t :
  prepare_threshold self = Some t ->
  od_get Key_eq_dec (key q) (_prepared (fst (maybe_add_to_cache self q prep name)))
  = Some (match od_get Key_eq_dec (key q) (_prepared self) with
          | Some (VBytes nm) => VBytes nm
          | Some (VInt n) =>
              if Prepare_eqb prep SHOULD then VBytes name else VInt (n + 1)
          | None => if Prepare_eqb prep SHOULD then VBytes name else VInt 1
          end).
Proof.
  intros T. unfold maybe_add_to_cache. rewrite T.
  destruct (od_get Key_eq_dec (key q) (_prepared self)) as [[n|nm]|] eqn:G; simpl.
  - rewrite od_get_move_to_end.
    destruct (Prepare_eqb prep SHOULD); apply od_get_set_same.
  - now rewrite od_get_move_to_end.
  - apply od_get_set_same.
Qed.

Lemma decide_and_record_other self q prepare k :
  key q <> k ->
  od_get Key_eq_dec k (_prepared (fst (decide_and_record self q prepare)))
  = od_get Key_eq_dec k (_prepared self).
Proof.
  intros N. unfold decide_and_record.
  destruct (get self q prepare) as [self1 [prep name]] eqn:G. simpl.
  rewrite maybe_add_other by assumption.
  pose proof (get_keeps_config self q prepare) as (_ & _ & P).
  rewrite G in P. simpl in P. now rewrite P.
Qed.

Lemma decide_and_record_threshold self q prepare :
  prepare_threshold (fst (decide_and_record self q prepare)) = prepare_threshold self.
Proof.
  unfold decide_and_record.
  destruct (get self q prepare) as [self1 [prep name]] eqn:G. simpl.
  pose proof (maybe_add_keeps_config self1 q prep name) as (T & _).
  pose proof (get_keeps_config self q prepare) as (T' & _).
  rewrite G in T'. simpl in T'. congruence.
Qed.

(** Below the threshold the statement is not prepared and is tallied. *)
Lemma decide_below self q t c :
  prepare_threshold self = Some t ->
  pending self (key q) c -> c < t ->
  snd (decide_and_record self q None) = (NO, "")
  /\ pending (fst (decide_and_record self q None)) (key q) (c + 1).
Proof.
  intros T P L. unfold decide_and_record.
  assert (G : get self q None = (self, (NO, ""))).
  { unfold get. rewrite T.
    destruct P as [P|[-> P]]; rewrite P;
      (destruct (Z.geb_spec c t) || destruct (Z.geb_spec 0 t)); simpl; trivial; lia. }
  rewrite G. simpl. split; trivial. left.
  rewrite (maybe_add_same _ _ _ _ t T).
  destruct P as [P|[-> P]]; rewrite P; reflexivity.
Qed.

(** At the threshold the statement is prepared under the next name. *)
Lemma decide_reached self q t c :
  prepare_threshold self = Some t ->
  pending self (key q) c -> t <= c ->
  snd (decide_and_record self q None)
  = (SHOULD, statement_name (_prepared_idx self))
  /\ od_get Key_eq_dec (key q) (_prepared (fst (decide_and_record self q None)))
     = Some (VBytes (statement_name (_prepared_idx self))).
Proof.
  intros T P L. unfold decide_and_record.
  assert (G : get self q None
              = (set_prepared_idx (_prepared_idx self + 1) self,
                 (SHOULD, statement_name (_prepared_idx self)))).
  { unfold get. rewrite T.
    destruct P as [P|[-> P]]; rewrite P;
      (destruct (Z.geb_spec c t) || destruct (Z.geb_spec 0 t)); simpl; trivial; lia. }
  rewrite G. simpl. split; trivial.
  rewrite (maybe_add_same _ _ _ _ t) by exact T. simpl.
  destruct P as [P|[-> P]]; rewrite P; reflexivity.
Qed.

(** A prepared statement is used under its name from then on. *)
Lemma decide_named self q t name :
  prepare_threshold self = Some t ->
  od_get Key_eq_dec (key q) (_prepared self) = Some (VBytes name) ->
  snd (decide_and_record self q None) = (YES, name)
  /\ od_get Key_eq_dec (key q) (_prepared (fst (decide_and_record self q None)))
     = Some (VBytes name).
Proof.
  intros T P. unfold decide_and_record.
  assert (G : get self q None = (self, (YES, name))).
  { unfold get. now rewrite T, P. }
  rewrite G. simpl. split; trivial.
  rewrite (maybe_add_same _ _ _ _ t T). now rewrite P.
Qed.

Lemma decisions_named k t name stmts :
  unforced k stmts ->
  forall self,
    prepare_threshold self = Some t ->
    od_get Key_eq_dec k (_prepared self) = Some (VBytes name) ->
    decisions_for k self stmts = repeat (YES, name) (about k stmts).
Proof.
  unfold about.
  induction 1 as [|[q p] stmts Hq Hs IH]; intros self T P; simpl; trivial.
  destruct (decide_and_record self q p) as [self1 d] eqn:D.
  pose proof (decide_and_record_threshold self q p) as T1.
  rewrite D in T1. simpl in T1. rewrite T in T1.
  destruct (Key_eq_dec (key q) k) as [E|E]; simpl.
  - simpl in Hq. rewrite (Hq E) in D. subst k.
    destruct (decide_named self q t name T P) as [S1 S2].
    rewrite D in S1, S2. simpl in S1, S2. subst d.
    f_equal. now apply IH.
  - apply IH; trivial.
    pose proof (decide_and_record_other self q p k E) as O.
    rewrite D in O. simpl in O. congruence.
Qed.

Lemma decisions_pending k t stmts :
  unforced k stmts ->
  forall self c,
    prepare_threshold self = Some t ->
    pending self k c ->
    exists idx,
      decisions_for k self stmts
      = promotion_schedule (Z.to_nat (t - c)) (statement_name idx) (about k stmts).
Proof.
  unfold about.
  induction 1 as [|[q p] stmts Hq Hs IH]; intros self c T P; simpl.
  - now exists 0.
  - destruct (decide_and_record self q p) as [self1 d] eqn:D.
    pose proof (decide_and_record_threshold self q p) as T1.
    rewrite D in T1. simpl in T1. rewrite T in T1.
    destruct (Key_eq_dec (key q) k) as [E|E]; simpl.
    + simpl in Hq. rewrite (Hq E) in D. subst k.
      destruct (Z_lt_le_dec c t) as [L|L].
      * destruct (decide_below self q t c T P L) as [S1 S2].
        rewrite D in S1, S2. simpl in S1, S2. subst d.
        destruct (IH self1 (c + 1) T1 S2) as [idx R].
        exists idx. rewrite R.
        replace (Z.to_nat (t - c)) with (S (Z.to_nat (t - (c + 1)))) by lia.
        reflexivity.
      * destruct (decide_reached self q t c T P L) as [S1 S2].
        rewrite D in S1, S2. simpl in S1, S2. subst d.
        exists (_prepared_idx self).
        replace (Z.to_nat (t - c)) with O by lia.
        f_equal. now apply (decisions_named _ t).
    + apply IH; trivial.
      pose proof (decide_and_record_other self q p k E) as O.
      unfold pending in *. rewrite D in O. simpl in O. now rewrite O.
Qed.

(** C1 (as stated): with threshold t the t-th statement on a fresh
    fingerprint is the one prepared.  With threshold 5 the fifth decision
    is still [NO]: the schedule with 4 skipped statements is not the one
    the manager follows. *)
Lemma threshold_promotion_as_stated_fails :
  ~ promoted_after (5 - 1) (new_manager (Some 5) 100) q_select1
      (repeat (q_select1, None) 6).
Proof.
  intros [idx H]. vm_compute in H. discriminate H.
Qed.

(** C1 (amended): with threshold t >= 0, statements on a fresh fingerprint
    whose decisions are recorded with [maybe_add_to_cache] get [NO] the
    first t times, [SHOULD] with a generated name the (t+1)-th time and
    [YES] with that same name every time after, whatever statements on
    other fingerprints come in between. *)
Theorem threshold_promotion (t : Z) (self : PrepareManager) (q : PostgresQuery)
    (stmts : list (PostgresQuery * option bool)) :
  prepare_threshold self = Some t ->
  0 <= t ->
  od_get Key_eq_dec (key q) (_prepared self) = None ->
  unforced (key q) stmts ->
  promoted_after (Z.to_nat t) self q stmts.
Proof.
  intros T Ht F U. unfold promoted_after.
  destruct (decisions_pending (key q) t stmts U self 0 T) as [idx R].
  - right. auto.
  - exists idx. now rewrite Z.sub_0_r in R.
Qed.

Lemma threshold_promotion_witness :
  promoted_after 5 (new_manager (Some 5) 100) q_select1
    (repeat (q_select1, None) 7).
Proof.
  apply (threshold_promotion 5); simpl; try reflexivity; try lia.
  unfold unforced. repeat constructor.
Defined.

(** ** Size of the cache *)

Lemma clear_cases self :
  (_prepared_idx self = 0 /\ clear self = (self, None))
  \/ (_prepared_idx self <> 0
      /\ clear self = (set_prepared_idx 0 (set_prepared [] self),
                       Some "DEALLOCATE ALL")).
Proof.
  unfold clear. destruct (Z.eqb_spec (_prepared_idx self) 0); auto.
Qed.

Lemma discard_loop_cases self results :
  discard_loop self results = (self, None)
  \/ discard_loop self results = clear self.
Proof.
  induction results as [|r rest IH]; simpl; auto.
  destruct (negb (ExecStatus_eqb (status r) COMMAND_OK)); trivial.
  destruct (discard_tag (command_status r)); auto.
Qed.

(** [_should_discard] either leaves the manager as it is and returns
    nothing, or wipes it and returns the directive. *)
Lemma should_discard_cases self prep results :
  _should_discard self prep results = (self, None)
  \/ (_prepared_idx self <> 0
      /\ _should_discard self prep results
         = (set_prepared_idx 0 (set_prepared [] self), Some "DEALLOCATE ALL")).
Proof.
  unfold _should_discard.
  destruct (negb (Z.of_nat (List.length (_prepared self)) =? 0)
            || Prepare_eqb prep SHOULD); auto.
  destruct (discard_loop_cases self results) as [E|E]; rewrite E; auto.
  destruct (clear_cases self) as [[_ C]|[N C]]; rewrite C; auto.
Qed.

Lemma maybe_add_length self q prep name :
  od_len (_prepared (fst (maybe_add_to_cache self q prep name)))
  <= od_len (_prepared self) + 1.
Proof.
  unfold maybe_add_to_cache, od_len.
  destruct (prepare_threshold self); simpl; [|lia].
  destruct (od_get Key_eq_dec (key q) (_prepared self)) as [[n|nm]|] eqn:G; simpl.
  - pose proof (od_move_to_end_length Key_eq_dec (key q)
        (if Prepare_eqb prep SHOULD
         then od_set Key_eq_dec (key q) (VBytes name) (_prepared self)
         else od_set Key_eq_dec (key q) (VInt (n + 1)) (_prepared self))) as L.
    destruct (Prepare_eqb prep SHOULD);
      rewrite od_set_length, G in L; lia.
  - pose proof (od_move_to_end_length Key_eq_dec (key q) (_prepared self)). lia.
  - rewrite od_set_length, G. lia.
Qed.

(** After [maybe_add_to_cache] the key is in the cache, unless prepared
    statements are disabled and nothing was done. *)
Lemma maybe_add_present self q prep name :
  (exists v, od_get Key_eq_dec (key q)
               (_prepared (fst (maybe_add_to_cache self q prep name))) = Some v)
  \/ fst (maybe_add_to_cache self q prep name) = self.
Proof.
  destruct (prepare_threshold self) as [t|] eqn:T.
  - left. rewrite (maybe_add_same _ _ _ _ t T). eauto.
  - right. unfold maybe_add_to_cache. now rewrite T.
Qed.

Lemma rotate_length self :
  prepared_max (fst (_rotate self)) = prepared_max self
  /\ od_len (_prepared (fst (_rotate self))) <= od_len (_prepared self)
  /\ (od_len (_prepared self) <= prepared_max self + 1 ->
      0 <= prepared_max self ->
      od_len (_prepared (fst (_rotate self))) <= prepared_max self).
Proof.
  unfold _rotate, od_len.
  destruct (Z.leb_spec (Z.of_nat (List.length (_prepared self))) (prepared_max self)).
  - simpl. repeat split; lia.
  - destruct (_prepared self) as [|[k v] rest] eqn:D;
      cbn [od_popitem_first fst _prepared set_prepared prepared_max];
      rewrite ?D; cbn [List.length] in *; repeat split; lia.
Qed.

(** [validate] never grows the cache, and brings a cache that is one entry
    over the maximum, its key present, back within it. *)
Lemma validate_length self k prep name results :
  prepared_max (fst (validate self k prep name results)) = prepared_max self
  /\ od_len (_prepared (fst (validate self k prep name results)))
     <= od_len (_prepared self)
  /\ (od_len (_prepared self) <= prepared_max self + 1 ->
      0 <= prepared_max self ->
      (exists v, od_get Key_eq_dec k (_prepared self) = Some v)
      \/ od_len (_prepared self) <= prepared_max self ->
      od_len (_prepared (fst (validate self k prep name results)))
      <= prepared_max self).
Proof.
  unfold validate.
  destruct (should_discard_cases self prep results) as [E|[N E]]; rewrite E; simpl.
  - destruct (negb (_check_results results)).
    + unfold od_del.
      destruct (od_get Key_eq_dec k (_prepared self)) as [v|] eqn:G; simpl.
      * pose proof (od_remove_length_present Key_eq_dec k _ v G).
        unfold od_len. repeat split; lia.
      * repeat split; try lia. intros _ _ [[v V]|L]; [discriminate|lia].
    + pose proof (rotate_length self) as (A & B & C). repeat split; auto.
  - unfold od_len. simpl. repeat split; lia.
Qed.

Lemma record_then_validate_bound self e :
  0 <= prepared_max self ->
  od_len (_prepared self) <= prepared_max self ->
  prepared_max (record_then_validate self e) = prepared_max self
  /\ od_len (_prepared (record_then_validate self e)) <= prepared_max self.
Proof.
  intros M L. unfold record_then_validate.
  set (self1 := fst (maybe_add_to_cache self (ex_query e) (ex_prep e) (ex_name e))).
  pose proof (maybe_add_keeps_config self (ex_query e) (ex_prep e) (ex_name e))
    as (_ & M1 & _).
  pose proof (maybe_add_length self (ex_query e) (ex_prep e) (ex_name e)) as L1.
  fold self1 in M1, L1.
  pose proof (validate_length self1 (key (ex_query e)) (ex_prep e) (ex_name e)
                (ex_results e)) as (A & _ & C).
  rewrite M1 in A, C. split; trivial.
  apply C; try lia.
  destruct (maybe_add_present self (ex_query e) (ex_prep e) (ex_name e)) as [P|P];
    fold self1 in P; [now left|right]. rewrite P. exact L.
Qed.

(** C2 (as stated): the size bound holds after every mutating call, a
    [maybe_add_to_cache] not yet validated included.  With a maximum of 1,
    two statements recorded one after the other leave 2 entries. *)
Lemma cache_bound_after_every_call_fails :
  let self := run_calls (new_manager (Some 5) 1)
                [CallAdd q_select1 NO ""; CallAdd q_select2 NO ""] in
  ~ od_len (_prepared self) <= prepared_max self.
Proof. vm_compute. intros H. apply H. reflexivity. Qed.

(** C2 (amended): when every [maybe_add_to_cache] is followed by its
    [validate] before the next one, a cache within the maximum
    (a maximum >= 0) is within it again after each [validate]; after the
    [maybe_add_to_cache] alone it holds at most one entry more. *)
Theorem cache_bound_after_validate (self : PrepareManager) (es : list exchange)
    (e : exchange) :
  0 <= prepared_max self ->
  od_len (_prepared self) <= prepared_max self ->
  let self' := fold_left record_then_validate es self in
  prepared_max self' = prepared_max self
  /\ od_len (_prepared self') <= prepared_max self
  /\ od_len (_prepared (fst (maybe_add_to_cache self'
                               (ex_query e) (ex_prep e) (ex_name e))))
     <= prepared_max self + 1.
Proof.
  intros M L. simpl.
  assert (H : prepared_max (fold_left record_then_validate es self) = prepared_max self
              /\ od_len (_prepared (fold_left record_then_validate es self))
                 <= prepared_max self).
  { revert self M L. induction es as [|e1 es IH]; intros self M L; simpl; auto.
    destruct (record_then_validate_bound self e1 M L) as [M1 L1].
    destruct (IH (record_then_validate self e1)) as [A B]; [lia|lia|].
    split; lia. }
  destruct H as [A B]. repeat split; trivial.
  pose proof (maybe_add_length (fold_left record_then_validate es self)
                (ex_query e) (ex_prep e) (ex_name e)). lia.
Qed.

Lemma cache_bound_after_validate_witness :
  let self := new_manager (Some 5) 1 in
  let ok := [mkResult TUPLES_OK None] in
  let self' := fold_left record_then_validate
                 [mkExchange q_select1 NO "" ok; mkExchange q_select2 NO "" ok] self in
  prepared_max self' = 1
  /\ od_len (_prepared self') <= 1
  /\ od_len (_prepared (fst (maybe_add_to_cache self' q_select1 NO ""))) <= 1 + 1.
Proof.
  apply (cache_bound_after_validate (new_manager (Some 5) 1)
           [mkExchange q_select1 NO "" [mkResult TUPLES_OK None];
            mkExchange q_select2 NO "" [mkResult TUPLES_OK None]]
           (mkExchange q_select1 NO "" [])); simpl; unfold od_len; simpl; lia.
Defined.

(** ** Wiping the cache on DROP and ROLLBACK *)

Lemma discard_loop_trigger self results :
  existsb discard_trigger results = true ->
  discard_loop self results = clear self.
Proof.
  induction results as [|r rest IH]; simpl; [discriminate|].
  unfold discard_trigger at 1.
  destruct (ExecStatus_eqb (status r) COMMAND_OK); simpl; auto.
  destruct (discard_tag (command_status r)); simpl; auto.
Qed.

(** C3 (as stated): a DROP or ROLLBACK result seen by [validate] while the
    cache is not empty empties it and returns the directive.  With one
    tallied statement and no name generated yet, the result of a
    "DROP TABLE" leaves the entry in place and nothing is returned. *)
Lemma drop_always_wipes_fails :
  let self := mkManager (Some 5) 100 [(key q_select1, VInt 1)] 0 in
  let results := [mkResult COMMAND_OK (Some "DROP TABLE")] in
  _prepared self <> []
  /\ existsb discard_trigger results = true
  /\ ~ (_prepared (fst (validate self (key q_select1) NO "" results)) = []
        /\ snd (validate self (key q_select1) NO "" results)
           = Return (Some "DEALLOCATE ALL")).
Proof.
  vm_compute. repeat split; try discriminate.
  intros [H _]. discriminate H.
Qed.

(** C3 (amended): when [validate] is called with a cache that is not empty
    (or for a [SHOULD] decision), some result is a successful command
    whose tag starts with "DROP " or is "ROLLBACK", and a statement name
    was generated since the last wipe ([_prepared_idx] is not 0), the
    cache becomes empty, the counter returns to 0 and [validate] returns
    "DEALLOCATE ALL", whatever the key validated. *)
Theorem drop_wipes_when_named (self : PrepareManager) (k : Key) (prep : Prepare)
    (name : bytes) (results : list PGresult) :
  _prepared self <> [] \/ prep = SHOULD ->
  existsb discard_trigger results = true ->
  _prepared_idx self <> 0 ->
  validate self k prep name results
  = (set_prepared_idx 0 (set_prepared [] self), Return (Some "DEALLOCATE ALL")).
Proof.
  intros G X N. unfold validate, _should_discard.
  assert (C : negb (Z.of_nat (List.length (_prepared self)) =? 0)
              || Prepare_eqb prep SHOULD = true).
  { destruct G as [G| ->].
    - destruct (_prepared self); [congruence|reflexivity].
    - apply orb_true_r. }
  rewrite C, (discard_loop_trigger _ _ X).
  destruct (clear_cases self) as [[Z _]|[_ E]]; [contradiction|].
  now rewrite E.
Qed.

Lemma drop_wipes_when_named_witness :
  let self := mkManager (Some 5) 100
                [(key q_select1, VBytes "_pg3_0"); (key q_select2, VInt 2)] 1 in
  validate self (key q_select2) NO ""
    [mkResult TUPLES_OK None; mkResult COMMAND_OK (Some "DROP TABLE t")]
  = (set_prepared_idx 0 (set_prepared [] self), Return (Some "DEALLOCATE ALL")).
Proof.
  apply drop_wipes_when_named.
  - left. discriminate.
  - reflexivity.
  - simpl. lia.
Defined.

(** ** Statement names *)

Lemma decimal_inj (i j : Z) : decimal i = decimal j -> i = j.
Proof.
  unfold decimal. intros E.
  apply (f_equal NilEmpty.int_of_string) in E.
  rewrite !NilEmpty.isi in E. injection E as E.
  now apply DecimalZ.to_int_inj.
Qed.

Lemma statement_name_inj (i j : Z) :
  statement_name i = statement_name j -> i = j.
Proof.
  unfold statement_name. simpl. intros E.
  injection E as E. now apply decimal_inj.
Qed.

(** What [get] does to the counter: it hands out the name of its current
    value and moves one up, or leaves it alone. *)
Lemma get_counter self q prepare :
  (fst (snd (get self q prepare)) = SHOULD
   /\ snd (snd (get self q prepare)) = statement_name (_prepared_idx self)
   /\ _prepared_idx (fst (get self q prepare)) = _prepared_idx self + 1)
  \/ (fst (snd (get self q prepare)) <> SHOULD
      /\ fst (get self q prepare) = self).
Proof.
  unfold get.
  destruct prepare as [[|]|], (prepare_threshold self) as [t|];
    try (right; split; [discriminate|reflexivity]);
    destruct (od_get Key_eq_dec (key q) (_prepared self)) as [[n|nm]|];
    try (right; split; [discriminate|reflexivity]);
    match goal with |- context [if ?b then _ else _] => destruct b end;
    try (right; split; [discriminate|reflexivity]);
    left; repeat split.
Qed.

Lemma rotate_counter self :
  _prepared_idx (fst (_rotate self)) = _prepared_idx self.
Proof.
  unfold _rotate.
  destruct (od_len (_prepared self) <=? prepared_max self); trivial.
  destruct (_prepared self) as [|[k v] rest]; trivial.
Qed.

(** A call that does not wipe the manager never lowers the counter. *)
Lemma run_call_counter self c :
  call_wipes self c = false ->
  _prepared_idx self <= _prepared_idx (run_call self c).
Proof.
  destruct c as [q p|q prep name|k prep name results|]; simpl; intros W.
  - destruct (get_counter self q p) as [(_ & _ & E)|[_ E]]; rewrite E; lia.
  - pose proof (maybe_add_keeps_config self q prep name) as (_ & _ & E). lia.
  - unfold validate.
    destruct (should_discard_cases self prep results) as [E|[_ E]];
      rewrite E in *; [|discriminate]. simpl.
    destruct (negb (_check_results results)).
    + destruct (od_del Key_eq_dec k (_prepared self)); simpl; lia.
    + rewrite rotate_counter. lia.
  - destruct (clear_cases self) as [[_ E]|[_ E]]; rewrite E in *;
      [simpl; lia|discriminate].
Qed.

Lemma run_calls_counter cs :
  forall self,
    calls_wipe self cs = false ->
    _prepared_idx self <= _prepared_idx (run_calls self cs).
Proof.
  unfold run_calls.
  induction cs as [|c cs IH]; intros self W; simpl in *; [lia|].
  apply orb_false_iff in W as [W1 W2].
  pose proof (run_call_counter self c W1). specialize (IH _ W2). lia.
Qed.

(** C4 (as stated): no two names generated by [get] on one connection are
    equal, wipes included.  After a wipe the first name is generated a
    second time. *)
Lemma names_never_reused_fails :
  let self := new_manager (Some 5) 100 in
  let first := get self q_select1 (Some true) in
  let wiped := run_calls (fst first) [CallClear] in
  let second := get wiped q_select2 (Some true) in
  fst (snd first) = SHOULD /\ fst (snd second) = SHOULD
  /\ ~ snd (snd first) <> snd (snd second).
Proof.
  vm_compute. repeat split. intros H. apply H. reflexivity.
Qed.

(** C4 (amended): a name generated by [get] is "_pg3_" followed by the
    decimal value of the counter, which then moves one up; over any calls
    of the manager among which none wipes it (no [clear] that returns the
    directive, by itself or through [validate]), a name generated later
    has a strictly larger index and differs from every earlier one.  A
    wipe sets the counter back to 0. *)
Theorem names_distinct_between_wipes (self : PrepareManager)
    (q q' : PostgresQuery) (prepare prepare' : option bool) (cs : list call) :
  let first := get self q prepare in
  let second := get (run_calls (fst first) cs) q' prepare' in
  fst (snd first) = SHOULD ->
  calls_wipe (fst first) cs = false ->
  fst (snd second) = SHOULD ->
  exists i j,
    snd (snd first) = ("_pg3_" ++ decimal i)%string
    /\ snd (snd second) = ("_pg3_" ++ decimal j)%string
    /\ i = _prepared_idx self
    /\ i < j
    /\ snd (snd first) <> snd (snd second).
Proof.
  simpl. intros S1 W S2.
  destruct (get_counter self q prepare) as [(_ & N1 & I1)|[X _]]; [|contradiction].
  destruct (get_counter (run_calls (fst (get self q prepare)) cs) q' prepare')
    as [(_ & N2 & _)|[X _]]; [|contradiction].
  pose proof (run_calls_counter cs _ W) as M.
  exists (_prepared_idx self),
         (_prepared_idx (run_calls (fst (get self q prepare)) cs)).
  rewrite N1, N2. repeat split; try lia.
  intros E. apply statement_name_inj in E. lia.
Qed.

Lemma names_distinct_between_wipes_witness :
  let self := new_manager (Some 5) 100 in
  let first := get self q_select1 (Some true) in
  let cs := [CallAdd q_select1 SHOULD "_pg3_0";
             CallValidate (key q_select1) SHOULD "_pg3_0" [mkResult TUPLES_OK None]] in
  let second := get (run_calls (fst first) cs) q_select2 (Some true) in
  exists i j,
    snd (snd first) = ("_pg3_" ++ decimal i)%string
    /\ snd (snd second) = ("_pg3_" ++ decimal j)%string
    /\ i = _prepared_idx self
    /\ i < j
    /\ snd (snd first) <> snd (snd second).
Proof.
  apply (names_distinct_between_wipes (new_manager (Some 5) 100)
           q_select1 q_select2 (Some true) (Some true)); reflexivity.
Defined.

(** ** Order of eviction *)

(** C5 (as stated): a [get] that finds its entry makes it the most recent
    one, so that the next rotation evicts another.  With a maximum of 1
    and two entries, the read of the first finds it ([YES]) and the
    rotation that follows evicts that very entry. *)
Lemma read_refreshes_recency_fails :
  let self := mkManager (Some 5) 1
                [(key q_select1, VBytes "_pg3_0"); (key q_select2, VInt 1)] 1 in
  let read := get self q_select1 None in
  let rotated := _rotate (fst read) in
  snd read = (YES, "_pg3_0")
  /\ ~ od_get Key_eq_dec (key q_select1) (_prepared (fst rotated)) <> None
  /\ snd rotated = Return (Some "DEALLOCATE _pg3_0").
Proof.
  vm_compute. repeat split. intros H. apply H. reflexivity.
Qed.

(** C5 (amended): the cache is kept in the order of the last
    [maybe_add_to_cache] of each key: a new key is appended, a key already
    there is moved to the end, and the other entries stay as they are, in
    their order; [get] never changes the cache, whether it finds the entry
    or not; and a rotation over the maximum removes the first entry, the
    one recorded longest ago, returning the directive to deallocate it
    when it holds a name. *)
Theorem eviction_order (self : PrepareManager) (q : PostgresQuery)
    (prepare : option bool) (prep : Prepare) (name : bytes) (t : Z) :
  prepare_threshold self = Some t ->
  _prepared (fst (get self q prepare)) = _prepared self
  /\ _prepared (fst (maybe_add_to_cache self q prep name))
     = filter (fun kv => if Key_eq_dec (key q) (fst kv) then false else true)
         (_prepared self)
       ++ [(key q,
            match od_get Key_eq_dec (key q) (_prepared self) with
            | Some (VBytes nm) => VBytes nm
            | Some (VInt n) =>
                if Prepare_eqb prep SHOULD then VBytes name else VInt (n + 1)
            | None => if Prepare_eqb prep SHOULD then VBytes name else VInt 1
            end)]
  /\ forall k v rest,
       _prepared self = (k, v) :: rest ->
       prepared_max self < od_len (_prepared self) ->
       _rotate self
       = (set_prepared rest self,
          Return (match v with
                  | VBytes n => Some ("DEALLOCATE " ++ n)%string
                  | VInt _ => None
                  end)).
Proof.
  intros T. split; [apply get_keeps_config|]. split.
  - rewrite <- od_remove_filter.
    unfold maybe_add_to_cache. rewrite T.
    destruct (od_get Key_eq_dec (key q) (_prepared self)) as [[n|nm]|] eqn:G;
      cbn [fst _prepared set_prepared].
    + unfold od_move_to_end.
      destruct (Prepare_eqb prep SHOULD);
        now rewrite od_get_set_same, od_remove_set.
    + unfold od_move_to_end. now rewrite G.
    + rewrite (od_remove_absent Key_eq_dec _ _ G). now apply od_set_absent.
  - intros k v rest D L. unfold _rotate.
    destruct (Z.leb_spec (od_len (_prepared self)) (prepared_max self)); [lia|].
    now rewrite D.
Qed.

(** Of three entries the second is recorded again: it goes last, and a
    rotation then removes the first. *)
Lemma eviction_order_witness :
  let self := mkManager (Some 5) 2
                [(key q_select1, VBytes "_pg3_0"); (key q_select2, VInt 1);
                 (key q_select3, VInt 2)] 1 in
  _prepared (fst (get self q_select2 None)) = _prepared self
  /\ _prepared (fst (maybe_add_to_cache self q_select2 NO ""))
     = [(key q_select1, VBytes "_pg3_0"); (key q_select3, VInt 2);
        (key q_select2, VInt 2)]
  /\ forall k v rest,
       _prepared self = (k, v) :: rest ->
       prepared_max self < od_len (_prepared self) ->
       _rotate self
       = (set_prepared rest self,
          Return (match v with
                  | VBytes n => Some ("DEALLOCATE " ++ n)%string
                  | VInt _ => None
                  end)).
Proof.
  exact (eviction_order
           (mkManager (Some 5) 2
              [(key q_select1, VBytes "_pg3_0"); (key q_select2, VInt 1);
               (key q_select3, VInt 2)] 1)
           q_select2 None NO "" 5 eq_refl).
Defined.

(** ** Errors of [validate] *)

(** C6: [validate] must never raise.  Two statements are recorded in a
    pipeline, the first prepared as "_pg3_0"; the result of the first is a
    "DROP TABLE", which wipes the cache; the second failed, and its
    [validate] deletes an entry that is no longer there: [KeyError]. *)
Theorem validate_raises_after_wipe :
  let s0 := new_manager (Some 5) 100 in
  let '(s1, (prep1, name1)) := get s0 q_select1 (Some true) in
  let '(s2, key1) := maybe_add_to_cache s1 q_select1 prep1 name1 in
  let '(s3, (prep2, name2)) := get s2 q_select2 None in
  let '(s4, key2) := maybe_add_to_cache s3 q_select2 prep2 name2 in
  let '(s5, r1) := validate s4 (key q_select1) prep1 name1
                     [mkResult COMMAND_OK (Some "DROP TABLE t")] in
  let '(s6, r2) := validate s5 (key q_select2) prep2 name2
                     [mkResult FATAL_ERROR None] in
  key1 = Some (key q_select1) /\ key2 = Some (key q_select2)
  /\ r1 = Return (Some "DEALLOCATE ALL")
  /\ _prepared s5 = []
  /\ r2 = RaiseKeyError.
Proof. vm_compute. repeat split. Qed.

(** ** [clear] *)

Lemma holds_name_false self :
  Forall is_tally (_prepared self) -> holds_name self = false.
Proof.
  unfold holds_name. induction 1 as [|[k [n|nm]] d H _ IH]; simpl; trivial.
  destruct H.
Qed.

Lemma tally_set k v d :
  is_tally (k, v) -> Forall is_tally d -> Forall is_tally (od_set Key_eq_dec k v d).
Proof.
  intros Hv. induction 1 as [|[k' v'] d H Hd IH]; simpl.
  - now constructor.
  - destruct (Key_eq_dec k k'); constructor; trivial.
Qed.

Lemma tally_remove k d :
  Forall is_tally d -> Forall is_tally (od_remove Key_eq_dec k d).
Proof.
  induction 1 as [|[k' v'] d H Hd IH]; simpl; trivial.
  destruct (Key_eq_dec k k'); trivial. now constructor.
Qed.

Lemma tally_get k v d :
  Forall is_tally d -> od_get Key_eq_dec k d = Some v -> is_tally (k, v).
Proof.
  induction 1 as [|[k' v'] d H Hd IH]; simpl; [discriminate|].
  destruct (Key_eq_dec k k'); auto. intros E. injection E as <-. exact H.
Qed.

Lemma tally_move_to_end k d :
  Forall is_tally d -> Forall is_tally (od_move_to_end Key_eq_dec k d).
Proof.
  intros H. unfold od_move_to_end.
  destruct (od_get Key_eq_dec k d) as [v|] eqn:G; trivial.
  apply Forall_app. split; [now apply tally_remove|].
  constructor; [|constructor]. now apply (tally_get k v d).
Qed.

Lemma tally_maybe_add self q prep name :
  prep <> SHOULD ->
  Forall is_tally (_prepared self) ->
  Forall is_tally (_prepared (fst (maybe_add_to_cache self q prep name))).
Proof.
  intros N H. unfold maybe_add_to_cache.
  assert (P : Prepare_eqb prep SHOULD = false) by (destruct prep; simpl; congruence).
  rewrite P.
  destruct (prepare_threshold self); trivial.
  destruct (od_get Key_eq_dec (key q) (_prepared self)) as [[n|nm]|]; simpl.
  - apply tally_move_to_end. now apply tally_set.
  - now apply tally_move_to_end.
  - now apply tally_set.
Qed.

Lemma tally_validate self k prep name results :
  Forall is_tally (_prepared self) ->
  Forall is_tally (_prepared (fst (validate self k prep name results))).
Proof.
  intros H. unfold validate.
  destruct (should_discard_cases self prep results) as [E|[_ E]]; rewrite E; simpl;
    [|constructor].
  destruct (negb (_check_results results)).
  - unfold od_del. destruct (od_get Key_eq_dec k (_prepared self)); simpl; trivial.
    now apply tally_remove.
  - unfold _rotate. destruct (od_len (_prepared self) <=? prepared_max self); trivial.
    destruct (_prepared self) as [|[k' v'] d] eqn:D; simpl; rewrite ?D; trivial.
    now inversion H.
Qed.

Lemma validate_counter self k prep name results :
  _prepared_idx (fst (validate self k prep name results)) = _prepared_idx self
  \/ (_prepared_idx (fst (validate self k prep name results)) = 0
      /\ _prepared (fst (validate self k prep name results)) = []).
Proof.
  unfold validate.
  destruct (should_discard_cases self prep results) as [E|[_ E]]; rewrite E; simpl;
    [left|now right].
  destruct (negb (_check_results results)).
  - destruct (od_del Key_eq_dec k (_prepared self)); trivial.
  - apply rotate_counter.
Qed.

(** While no name has been generated since the last wipe, the cache holds
    tallies only. *)
Lemma reachable_counter self :
  reachable self ->
  0 <= _prepared_idx self
  /\ (_prepared_idx self = 0 -> Forall is_tally (_prepared self)).
Proof.
  induction 1 as [th mx|self q p R [I1 I2]|self q p R [I1 I2]
                 |self k prep name results R [I1 I2]|self R [I1 I2]].
  - simpl. split; [lia|constructor].
  - unfold decide_and_record.
    destruct (get self q p) as [self1 [prep name]] eqn:G. simpl.
    pose proof (maybe_add_keeps_config self1 q prep name) as (_ & _ & C).
    pose proof (get_keeps_config self q p) as (_ & _ & D).
    destruct (get_counter self q p) as [(_ & _ & E)|[N E]];
      rewrite G in *; simpl in *.
    + split; [lia|]. intros Z. lia.
    + subst self1. split; [lia|]. intros Z.
      apply tally_maybe_add; trivial. apply I2. lia.
  - pose proof (get_keeps_config self q p) as (_ & _ & D).
    destruct (get_counter self q p) as [(_ & _ & E)|[N E]]; rewrite E.
    + split; lia.
    + now split.
  - destruct (validate_counter self k prep name results) as [E|[E F]]; rewrite E.
    + split; trivial. intros Z. apply tally_validate. auto.
    + split; [lia|]. rewrite F. constructor.
  - destruct (clear_cases self) as [[Z E]|[N E]]; rewrite E; simpl.
    + now split.
    + split; [lia|constructor].
Qed.

(** C7 (as stated): [clear] returns "DEALLOCATE ALL" only if something
    is materialized on the server.  A statement is prepared as "_pg3_0"
    and fails: [validate] drops its entry, no name is left in the cache,
    and [clear] still returns the directive, the counter being 1. *)
Lemma clear_only_if_materialized_fails :
  let s0 := new_manager (Some 5) 100 in
  let s1 := fst (decide_and_record s0 q_select1 (Some true)) in
  let s2 := fst (validate s1 (key q_select1) SHOULD "_pg3_0"
                   [mkResult FATAL_ERROR None]) in
  reachable s2
  /\ _prepared s2 = []
  /\ holds_name s2 = false
  /\ ~ (snd (clear s2) = Some "DEALLOCATE ALL" -> holds_name s2 = true).
Proof.
  repeat split.
  - apply reach_validate, reach_decide, reach_new.
  - intros H. discriminate (H eq_refl).
Qed.

(** C7 (amended): [clear] returns "DEALLOCATE ALL" exactly when a
    statement name was generated since the last wipe (the counter is not
    0), which is the case whenever the cache of a manager in use holds a
    name; otherwise it returns nothing and changes nothing; and a second
    [clear] right after the first returns nothing. *)
Theorem clear_directive_once (self : PrepareManager) :
  (snd (clear self) = Some "DEALLOCATE ALL" \/ snd (clear self) = None)
  /\ (snd (clear self) = Some "DEALLOCATE ALL" <-> _prepared_idx self <> 0)
  /\ (snd (clear self) = None -> fst (clear self) = self)
  /\ snd (clear (fst (clear self))) = None
  /\ (reachable self -> holds_name self = true ->
      snd (clear self) = Some "DEALLOCATE ALL").
Proof.
  destruct (clear_cases self) as [[Z E]|[N E]]; rewrite E; simpl.
  - repeat split; auto; try congruence.
    + unfold clear. now rewrite Z.
    + intros R H. destruct (reachable_counter self R) as [_ T].
      rewrite (holds_name_false self (T Z)) in H. discriminate.
  - repeat split; auto; discriminate.
Qed.

Lemma clear_directive_once_witness :
  let self := fst (decide_and_record (new_manager (Some 5) 100) q_select1 (Some true)) in
  holds_name self = true /\ snd (clear self) = Some "DEALLOCATE ALL".
Proof.
  split; [reflexivity|].
  apply (clear_directive_once
           (fst (decide_and_record (new_manager (Some 5) 100) q_select1 (Some true)))).
  - apply reach_decide, reach_new.
  - reflexivity.
Defined.

(** ** UTF-8 *)

Lemma Z_of_byte_of_Z (z : Z) : 0 <= z < 256 -> Z_of_byte (byte_of_Z z) = z.
Proof.
  intros R. unfold Z_of_byte, byte_of_Z.
  rewrite N_ascii_embedding by lia. lia.
Qed.

(** One step of the decoder, on a first byte and what follows it. *)
Lemma utf8_decode_step (a0 : ascii) (r0 : bytes) :
  utf8_decode (String a0 r0)
  = let b0 := Z_of_byte a0 in
    if b0 <? 0x80 then option_map (cons b0) (utf8_decode r0)
    else if b0 <? 0xC2 then None
    else if b0 <? 0xE0 then
      match r0 with
      | String a1 r1 =>
          let b1 := Z_of_byte a1 in
          if is_cont b1
          then option_map (cons ((b0 - 0xC0) * 64 + (b1 - 0x80))) (utf8_decode r1)
          else None
      | _ => None
      end
    else if b0 <? 0xF0 then
      match r0 with
      | String a1 (String a2 r2) =>
          let b1 := Z_of_byte a1 in
          let b2 := Z_of_byte a2 in
          let c := (b0 - 0xE0) * 4096 + (b1 - 0x80) * 64 + (b2 - 0x80) in
          if is_cont b1 && is_cont b2 && (0x800 <=? c) && negb (is_surrogate c)
          then option_map (cons c) (utf8_decode r2)
          else None
      | _ => None
      end
    else if b0 <? 0xF5 then
      match r0 with
      | String a1 (String a2 (String a3 r3)) =>
          let b1 := Z_of_byte a1 in
          let b2 := Z_of_byte a2 in
          let b3 := Z_of_byte a3 in
          let c := (b0 - 0xF0) * 262144 + (b1 - 0x80) * 4096
                   + (b2 - 0x80) * 64 + (b3 - 0x80) in
          if is_cont b1 && is_cont b2 && is_cont b3
             && (0x10000 <=? c) && (c <? 0x110000)
          then option_map (cons c) (utf8_decode r3)
          else None
      | _ => None
      end
    else None.
Proof. reflexivity. Qed.

(** Settle the comparisons of the goal from the bounds at hand. *)
Ltac settle_tests :=
  repeat match goal with
         | |- context [?a <? ?b] =>
             destruct (Z.ltb_spec a b); try (exfalso; lia)
         | |- context [?a <=? ?b] =>
             destruct (Z.leb_spec a b); try (exfalso; lia)
         end.

(** The decoder reads back the bytes of an encoded code point. *)
Lemma utf8_decode_char (c : Z) (l : list Z) (rest : bytes) :
  utf8_encode_char c = Some l ->
  utf8_decode (bytes_of_list l ++ rest)%string
  = option_map (cons c) (utf8_decode rest).
Proof.
  unfold utf8_encode_char, is_surrogate.
  destruct (Z.ltb_spec c 0); [discriminate|].
  destruct (Z.ltb_spec c 0x80).
  { intros E. assert (L : l = [c]) by congruence. subst l. clear E.
    cbn [bytes_of_list append].
    rewrite utf8_decode_step. cbv zeta.
    rewrite Z_of_byte_of_Z by lia. settle_tests. reflexivity. }
  destruct (Z.ltb_spec c 0x800).
  { intros E.
    assert (L : l = [0xC0 + c / 64; 0x80 + c mod 64]) by congruence.
    subst l. clear E. cbn [bytes_of_list append].
    assert (Q : 2 <= c / 64 < 32 /\ 0 <= c mod 64 < 64
                /\ c = 64 * (c / 64) + c mod 64)
      by (Z.div_mod_to_equations; lia).
    destruct Q as (Q1 & Q2 & Q3).
    set (q := c / 64) in *. set (r := c mod 64) in *.
    rewrite utf8_decode_step. cbv zeta.
    rewrite !Z_of_byte_of_Z by lia. unfold is_cont.
    settle_tests. cbn [andb]. do 2 f_equal. lia. }
  destruct (Z.ltb_spec c 0x10000).
  { intros E.
    assert (S : (0xD800 <=? c) && (c <=? 0xDFFF) = false)
      by (destruct ((0xD800 <=? c) && (c <=? 0xDFFF)); [discriminate|reflexivity]).
    rewrite S in E.
    assert (L : l = [0xE0 + c / 4096; 0x80 + (c / 64) mod 64; 0x80 + c mod 64])
      by congruence.
    subst l. clear E. cbn [bytes_of_list append].
    assert (Q : 0 <= c / 4096 < 16 /\ 0 <= (c / 64) mod 64 < 64
                /\ 0 <= c mod 64 < 64
                /\ c = 4096 * (c / 4096) + 64 * ((c / 64) mod 64) + c mod 64)
      by (Z.div_mod_to_equations; lia).
    destruct Q as (Q1 & Q2 & Q3 & Q4).
    set (q1 := c / 4096) in *. set (q2 := (c / 64) mod 64) in *.
    set (r := c mod 64) in *.
    rewrite utf8_decode_step. cbv zeta.
    rewrite !Z_of_byte_of_Z by lia.
    replace ((0xE0 + q1 - 0xE0) * 4096 + (0x80 + q2 - 0x80) * 64 + (0x80 + r - 0x80))
      with c by lia.
    unfold is_surrogate. rewrite S. unfold is_cont.
    settle_tests. reflexivity. }
  destruct (Z.ltb_spec c 0x110000); [|discriminate].
  intros E.
  assert (L : l = [0xF0 + c / 262144; 0x80 + (c / 4096) mod 64;
                   0x80 + (c / 64) mod 64; 0x80 + c mod 64]) by congruence.
  subst l. clear E. cbn [bytes_of_list append].
  assert (Q : 0 <= c / 262144 < 5 /\ 0 <= (c / 4096) mod 64 < 64
              /\ 0 <= (c / 64) mod 64 < 64 /\ 0 <= c mod 64 < 64
              /\ c = 262144 * (c / 262144) + 4096 * ((c / 4096) mod 64)
                     + 64 * ((c / 64) mod 64) + c mod 64)
    by (Z.div_mod_to_equations; lia).
  destruct Q as (Q1 & Q2 & Q3 & Q4 & Q5).
  set (q1 := c / 262144) in *. set (q2 := (c / 4096) mod 64) in *.
  set (q3 := (c / 64) mod 64) in *. set (r := c mod 64) in *.
  rewrite utf8_decode_step. cbv zeta.
  rewrite !Z_of_byte_of_Z by lia.
  replace ((0xF0 + q1 - 0xF0) * 262144 + (0x80 + q2 - 0x80) * 4096
           + (0x80 + q3 - 0x80) * 64 + (0x80 + r - 0x80))
    with c by lia.
  unfold is_cont. settle_tests. reflexivity.
Qed.

(** Decoding inverts encoding. *)
Lemma utf8_roundtrip (s : str) :
  forall b, utf8_encode s = Some b -> utf8_decode b = Some s.
Proof.
  induction s as [|c s IH]; simpl; intros b E.
  - now injection E as <-.
  - destruct (utf8_encode_char c) as [l|] eqn:C; [|discriminate].
    destruct (utf8_encode s) as [bs|]; [|discriminate].
    injection E as <-. rewrite (utf8_decode_char c l bs C).
    now rewrite (IH bs eq_refl).
Qed.

(** Every string of scalar values has UTF-8 bytes. *)
Lemma utf8_encode_scalar (s : str) :
  forallb is_scalar s = true -> exists b, utf8_encode s = Some b.
Proof.
  induction s as [|c s IH]; simpl; intros H; [eauto|].
  apply andb_true_iff in H as [Hc Hs].
  destruct (IH Hs) as [bs ->].
  assert (C : exists l, utf8_encode_char c = Some l).
  { unfold is_scalar in Hc. unfold utf8_encode_char.
    destruct (is_surrogate c); [now rewrite andb_false_r in Hc|].
    rewrite andb_true_r in Hc. apply andb_true_iff in Hc as [L U].
    apply Z.leb_le in L. apply Z.ltb_lt in U.
    settle_tests; eauto. }
  destruct C as [l ->]. eauto.
Qed.

(** ** The dumpers and loaders of text *)

Lemma has_nul_In (s : str) : existsb (Z.eqb 0) s = true <-> In 0 s.
Proof.
  rewrite existsb_exists. split.
  - intros (x & I & E). apply Z.eqb_eq in E. now subst x.
  - intros I. exists 0. split; trivial.
Qed.

(** C8 (as stated): every string with a NUL is dumped by the binary
    dumper and loaded back as itself.  A string with a lone surrogate is
    refused by the UTF-8 codec; and on a connection whose client encoding
    is "ascii" the loader returns the bytes, not the string. *)
Lemma nul_binary_roundtrip_fails :
  let lone := [0; 0xD800] in
  let sql_ascii := Some (mkConnection "ascii") in
  (In 0 lone
   /\ ~ exists b,
          StrBinaryDumper.dump no_more_codecs (_StrDumper.__init__ None) lone
          = Ok b)
  /\ (In 0 abc_nul_def
      /\ ~ exists b,
           StrBinaryDumper.dump no_more_codecs (_StrDumper.__init__ sql_ascii)
             abc_nul_def = Ok b
           /\ TextBinaryLoader.load no_more_codecs
                (TextBinaryLoader.__init__ sql_ascii) (mkBuffer KBytes b)
              = Ok (LStr abc_nul_def)).
Proof.
  simpl. repeat split.
  - left. reflexivity.
  - intros [b H]. vm_compute in H. discriminate H.
  - do 3 right. left. reflexivity.
  - intros [b [_ H]]. vm_compute in H. discriminate H.
Qed.

(** C8 (amended): for every string with a NUL, [StrDumper.dump] raises
    [DataError] whatever the encoding, lone surrogates or not; when the
    string has no lone surrogate and the adapters have no connection, or
    one whose client encoding is "utf-8", [StrBinaryDumper.dump] returns
    its UTF-8 bytes and the matching loaders give the string back from
    them. *)
Theorem nul_text_error_binary_roundtrip (py : PythonCodecs) (s : str) :
  In 0 s ->
  (forall dumper, StrDumper.dump py dumper s = Raise DataError)
  /\ forall conn kind,
       forallb is_scalar s = true ->
       conn = None \/ (exists c, conn = Some c /\ client_encoding c = "utf-8") ->
       exists b,
         utf8_encode s = Some b
         /\ StrBinaryDumper.dump py (_StrDumper.__init__ conn) s = Ok b
         /\ TextBinaryLoader.load py (TextBinaryLoader.__init__ conn)
              (mkBuffer kind b)
            = Ok (LStr s)
         /\ TextLoader.load py (TextLoader.__init__ conn) (mkBuffer kind b)
            = Ok (LStr s).
Proof.
  intros N. split.
  - intros dumper. unfold StrDumper.dump.
    apply has_nul_In in N. now rewrite N.
  - intros conn kind V C.
    destruct (utf8_encode_scalar s V) as [b E]. exists b.
    assert (D : _StrDumper.__init__ conn = _StrDumper.mk "utf-8").
    { destruct C as [->|(c & -> & U)]; trivial. simpl. now rewrite U. }
    assert (L : TextLoader.__init__ conn = TextLoader.mk "utf-8").
    { destruct C as [->|(c & -> & U)]; trivial. simpl. now rewrite U. }
    unfold TextBinaryLoader.load, TextBinaryLoader.__init__.
    rewrite D, L.
    unfold StrBinaryDumper.dump, TextLoader.load, str_encode, bytes_decode.
    simpl. rewrite E, (utf8_roundtrip s b E). destruct kind; auto.
Qed.

(** "abc\x00def" without a connection, and a NUL beside a lone surrogate
    under an encoding that the runtime does not know. *)
Lemma nul_text_error_binary_roundtrip_witness :
  StrDumper.dump no_more_codecs (_StrDumper.mk "no-such-codec") [0; 0xD800]
  = Raise DataError
  /\ (forall dumper,
        StrDumper.dump no_more_codecs dumper abc_nul_def = Raise DataError)
  /\ exists b,
       utf8_encode abc_nul_def = Some b
       /\ StrBinaryDumper.dump no_more_codecs (_StrDumper.__init__ None)
            abc_nul_def = Ok b
       /\ TextBinaryLoader.load no_more_codecs (TextBinaryLoader.__init__ None)
            (mkBuffer KBytes b)
          = Ok (LStr abc_nul_def)
       /\ TextLoader.load no_more_codecs (TextLoader.__init__ None)
            (mkBuffer KBytes b)
          = Ok (LStr abc_nul_def).
Proof.
  split.
  - apply (nul_text_error_binary_roundtrip no_more_codecs [0; 0xD800]).
    left. reflexivity.
  - assert (N : In 0 abc_nul_def) by (simpl; tauto).
    destruct (nul_text_error_binary_roundtrip no_more_codecs abc_nul_def N)
      as [E R].
    split; [exact E|].
    apply (R None KBytes); [reflexivity|left; reflexivity].
Defined.

(** C9: the binary dumper and loader of byte arrays return what they are
    given, so that loading what was dumped gives the bytes back, the
    empty ones too. *)
Theorem bytea_binary_roundtrip (b : Buffer) :
  ByteaBinaryLoader.load (BytesBinaryDumper.dump b) = b
  /\ BytesBinaryDumper.dump b = b
  /\ ByteaBinaryLoader.load b = b
  /\ ByteaBinaryLoader.load
       (BytesBinaryDumper.dump (mkBuffer (buf_kind b) EmptyString))
     = mkBuffer (buf_kind b) EmptyString.
Proof. repeat split. Qed.

(** C10: on a connection whose client encoding is "ascii" the dumpers of
    text keep "utf-8": a string of scalar values is dumped as its UTF-8
    bytes (by the text dumper when it has no NUL), while the loaders of
    that connection return the bytes they are given, undecoded. *)
Theorem ascii_connection_dumps_utf8 (py : PythonCodecs) (c : Connection)
    (s : str) (data : Buffer) :
  client_encoding c = "ascii" ->
  let dumper := _StrDumper.__init__ (Some c) in
  let loader := TextLoader.__init__ (Some c) in
  _StrDumper._encoding dumper = "utf-8"
  /\ StrBinaryDumper.dump py dumper s
     = StrBinaryDumper.dump py (_StrDumper.__init__ None) s
  /\ StrDumper.dump py dumper s = StrDumper.dump py (_StrDumper.__init__ None) s
  /\ (forallb is_scalar s = true ->
      exists b,
        utf8_encode s = Some b
        /\ StrBinaryDumper.dump py dumper s = Ok b
        /\ (existsb (Z.eqb 0) s = false -> StrDumper.dump py dumper s = Ok b))
  /\ TextLoader.load py loader data = Ok (LRaw data)
  /\ TextBinaryLoader.load py loader data = Ok (LRaw data).
Proof.
  intros A. simpl. rewrite A. simpl. repeat split.
  intros V. destruct (utf8_encode_scalar s V) as [b E]. exists b.
  unfold StrBinaryDumper.dump, StrDumper.dump, str_encode. simpl.
  rewrite E. repeat split. now intros ->.
Qed.

(** "é" is dumped as C3 A9 where the ASCII codec would refuse it. *)
Lemma ascii_connection_dumps_utf8_witness :
  let c := mkConnection "ascii" in
  str_encode no_more_codecs [233] "ascii" = Raise UnicodeEncodeError
  /\ StrBinaryDumper.dump no_more_codecs (_StrDumper.__init__ (Some c)) [233]
     = Ok (bytes_of_list [0xC3; 0xA9])
  /\ TextLoader.load no_more_codecs (TextLoader.__init__ (Some c))
       (mkBuffer KBytes (bytes_of_list [0xC3; 0xA9]))
     = Ok (LRaw (mkBuffer KBytes (bytes_of_list [0xC3; 0xA9]))).
Proof.
  split; [reflexivity|].
  pose proof (ascii_connection_dumps_utf8 no_more_codecs
                (mkConnection "ascii") [233]
                (mkBuffer KBytes (bytes_of_list [0xC3; 0xA9])) eq_refl)
    as (_ & _ & _ & D & L & _).
  split; [|exact L].
  destruct (D eq_refl) as (b & E & B & _).
  rewrite B. f_equal. vm_compute in E. now injection E as <-.
Defined.

(** * Further properties of the manager *)

(** ** Keys of the ordered dictionary *)

Section OrderedDictKeys.

Context {K V : Type}.
Variable K_eq_dec : forall a b : K, {a = b} + {a <> b}.
Implicit Types (k : K) (v : V) (d : list (K * V)).

Lemma od_get_none_iff k d :
  od_get K_eq_dec k d = None <-> ~ In k (map fst d).
Proof.
  induction d as [|[k' v'] d IH]; simpl.
  - tauto.
  - destruct (K_eq_dec k k') as [E|E].
    + split; [discriminate|]. intros N. exfalso. apply N. auto.
    + rewrite IH. split.
      * intros N [F|F]; [congruence|contradiction].
      * intros N F. apply N. now right.
Qed.

Lemma od_remove_keys_in (k k' : K) d :
  In k' (map fst (od_remove K_eq_dec k d)) -> In k' (map fst d) /\ k' <> k.
Proof.
  induction d as [|[k2 v2] d IH]; simpl; [tauto|].
  destruct (K_eq_dec k k2) as [E|E]; simpl.
  - intros I. apply IH in I. tauto.
  - intros [I|I].
    + subst k2. split; [now left|congruence].
    + apply IH in I. tauto.
Qed.

Lemma od_remove_unique k d :
  NoDup (map fst d) -> NoDup (map fst (od_remove K_eq_dec k d)).
Proof.
  induction d as [|[k' v'] d IH]; simpl; trivial.
  intros N. inversion N as [|? ? N1 N2]; subst.
  destruct (K_eq_dec k k'); simpl; auto.
  constructor; auto. intros I. apply od_remove_keys_in in I. tauto.
Qed.

Lemma od_remove_app k d1 d2 :
  od_remove K_eq_dec k (d1 ++ d2)
  = od_remove K_eq_dec k d1 ++ od_remove K_eq_dec k d2.
Proof.
  induction d1 as [|[k' v'] d1 IH]; simpl; trivial.
  destruct (K_eq_dec k k'); simpl; now rewrite IH.
Qed.

(** With unique keys, removing a key that is there removes one entry. *)
Lemma od_remove_length_unique k v d :
  NoDup (map fst d) ->
  od_get K_eq_dec k d = Some v ->
  S (List.length (od_remove K_eq_dec k d)) = List.length d.
Proof.
  induction d as [|[k' v'] d IH]; simpl; [discriminate|].
  intros N. inversion N as [|? ? N1 N2]; subst.
  destruct (K_eq_dec k k') as [E|E]; simpl.
  - subst k'. intros _. apply od_get_none_iff in N1.
    now rewrite (od_remove_absent K_eq_dec _ _ N1).
  - intros G. now rewrite (IH N2 G).
Qed.

Lemma od_set_keys k v d :
  map fst (od_set K_eq_dec k v d)
  = match od_get K_eq_dec k d with
    | Some _ => map fst d
    | None => map fst d ++ [k]
    end.
Proof.
  induction d as [|[k' v'] d IH]; simpl; trivial.
  destruct (K_eq_dec k k'); simpl; trivial.
  rewrite IH. now destruct (od_get K_eq_dec k d).
Qed.

Lemma od_set_unique k v d :
  NoDup (map fst d) -> NoDup (map fst (od_set K_eq_dec k v d)).
Proof.
  intros N. rewrite od_set_keys.
  destruct (od_get K_eq_dec k d) eqn:G; trivial.
  apply od_get_none_iff in G.
  apply NoDup_app; trivial.
  - constructor; [tauto|constructor].
  - intros x I [<-|[]]. exact (G I).
Qed.

Lemma od_move_to_end_unique k d :
  NoDup (map fst d) -> NoDup (map fst (od_move_to_end K_eq_dec k d)).
Proof.
  intros N. unfold od_move_to_end.
  destruct (od_get K_eq_dec k d) as [v|]; trivial.
  rewrite map_app. apply NoDup_app.
  - now apply od_remove_unique.
  - constructor; [tauto|constructor].
  - intros x I [<-|[]]. apply od_remove_keys_in in I. tauto.
Qed.

(** With unique keys, what is found after the first entry was found in
    the whole dictionary. *)
Lemma od_get_tail (k k0 : K) v v0 d :
  NoDup (map fst ((k0, v0) :: d)) ->
  od_get K_eq_dec k d = Some v ->
  od_get K_eq_dec k ((k0, v0) :: d) = Some v.
Proof.
  simpl. intros N G. inversion N as [|? ? N1 N2]; subst.
  destruct (K_eq_dec k k0) as [E|E]; trivial.
  subst k0. apply od_get_none_iff in N1. congruence.
Qed.

End OrderedDictKeys.

(** ** Unique keys *)

Lemma maybe_add_unique self q prep name :
  keys_unique self -> keys_unique (fst (maybe_add_to_cache self q prep name)).
Proof.
  unfold keys_unique, maybe_add_to_cache. intros N.
  destruct (prepare_threshold self); trivial.
  destruct (od_get Key_eq_dec (key q) (_prepared self)) as [[n|nm]|]; simpl.
  - apply od_move_to_end_unique.
    destruct (Prepare_eqb prep SHOULD); now apply od_set_unique.
  - now apply od_move_to_end_unique.
  - now apply od_set_unique.
Qed.

Lemma rotate_unique self :
  keys_unique self -> keys_unique (fst (_rotate self)).
Proof.
  unfold keys_unique, _rotate. intros N.
  destruct (od_len (_prepared self) <=? prepared_max self); trivial.
  destruct (_prepared self) as [|[k v] rest] eqn:D; simpl; rewrite ?D; trivial.
  now inversion N.
Qed.

Lemma validate_unique self k prep name results :
  keys_unique self -> keys_unique (fst (validate self k prep name results)).
Proof.
  intros N. unfold validate.
  destruct (should_discard_cases self prep results) as [E|[_ E]]; rewrite E; simpl.
  - destruct (negb (_check_results results)).
    + unfold od_del. destruct (od_get Key_eq_dec k (_prepared self)); trivial.
      unfold keys_unique. simpl. now apply od_remove_unique.
    + now apply rotate_unique.
  - constructor.
Qed.

Lemma run_call_unique self c :
  keys_unique self -> keys_unique (run_call self c).
Proof.
  intros N. destruct c as [q p|q prep name|k prep name results|]; simpl.
  - unfold keys_unique.
    pose proof (get_keeps_config self q p) as (_ & _ & E). now rewrite E.
  - now apply maybe_add_unique.
  - now apply validate_unique.
  - destruct (clear_cases self) as [[_ E]|[_ E]]; rewrite E; trivial. constructor.
Qed.

(** X1: no call of the manager makes the cache hold two entries for one
    fingerprint. *)
Theorem keys_stay_unique (self : PrepareManager) (cs : list call) :
  keys_unique self -> keys_unique (run_calls self cs).
Proof.
  unfold run_calls. revert self.
  induction cs as [|c cs IH]; intros self N; simpl; trivial.
  apply IH. now apply run_call_unique.
Qed.

Lemma keys_stay_unique_witness :
  keys_unique
    (run_calls (new_manager (Some 0) 1)
       [CallAdd q_select1 NO ""; CallAdd q_select2 SHOULD "_pg3_0";
        CallAdd q_select1 SHOULD "_pg3_1";
        CallValidate (key q_select1) SHOULD "_pg3_1" [mkResult TUPLES_OK None]]).
Proof.
  apply keys_stay_unique. constructor.
Defined.

(** ** What [maybe_add_to_cache] returns *)

(** X2: [maybe_add_to_cache] returns the key of the statement exactly when
    the cache is enabled and did not have it; the entry is then added as
    the last one, with a tally of 1 or with the name.  Otherwise it
    returns nothing and, keys being unique, the cache keeps its size. *)
Theorem maybe_add_returns_new_key (self : PrepareManager) (q : PostgresQuery)
    (prep : Prepare) (name : bytes) :
  let after := maybe_add_to_cache self q prep name in
  (snd after = Some (key q)
   /\ prepare_threshold self <> None
   /\ od_get Key_eq_dec (key q) (_prepared self) = None
   /\ _prepared (fst after)
      = _prepared self
        ++ [(key q, if Prepare_eqb prep SHOULD then VBytes name else VInt 1)])
  \/ (snd after = None
      /\ (prepare_threshold self = None
          \/ od_get Key_eq_dec (key q) (_prepared self) <> None)
      /\ (keys_unique self ->
          List.length (_prepared (fst after)) = List.length (_prepared self))).
Proof.
  simpl. unfold maybe_add_to_cache.
  destruct (prepare_threshold self) as [t|]; [|right; auto].
  destruct (od_get Key_eq_dec (key q) (_prepared self)) as [found|] eqn:G.
  - right. simpl. repeat split; [right; discriminate|].
    intros N. unfold od_move_to_end.
    set (d := match found with
              | VInt n =>
                  if Prepare_eqb prep SHOULD
                  then od_set Key_eq_dec (key q) (VBytes name) (_prepared self)
                  else od_set Key_eq_dec (key q) (VInt (n + 1)) (_prepared self)
              | VBytes _ => _prepared self
              end).
    assert (L : List.length d = List.length (_prepared self)).
    { unfold d. destruct found; trivial.
      destruct (Prepare_eqb prep SHOULD); now rewrite od_set_length, G. }
    assert (U : NoDup (map fst d)).
    { unfold d. destruct found; trivial.
      destruct (Prepare_eqb prep SHOULD); now apply od_set_unique. }
    assert (S : exists v, od_get Key_eq_dec (key q) d = Some v).
    { unfold d. destruct found; [|eauto].
      destruct (Prepare_eqb prep SHOULD); rewrite od_get_set_same; eauto. }
    destruct S as [v S]. rewrite S, length_app. simpl.
    pose proof (od_remove_length_unique Key_eq_dec _ _ _ U S). lia.
  - left. simpl. repeat split; [discriminate|].
    now apply od_set_absent.
Qed.

(** ** A manager with prepared statements disabled *)

Lemma disabled_call_inert max c :
  run_call (new_manager None max) c = new_manager None max.
Proof.
  destruct c as [q p|q prep name|k prep name results|]; simpl; trivial.
  - now destruct p as [[|]|].
  - unfold validate.
    destruct (should_discard_cases (new_manager None max) prep results)
      as [E|[N _]]; [rewrite E|now elim N].
    simpl. destruct (negb (_check_results results)); trivial.
    unfold _rotate. simpl.
    destruct (od_len [] <=? max); trivial.
Qed.

(** X3: a manager whose [prepare_threshold] is [None] stays as it was
    created whatever is called on it: the cache stays empty, no name is
    generated, and every decision is [NO]. *)
Theorem disabled_manager_inert (max : Z) (cs : list call) (q : PostgresQuery)
    (prepare : option bool) :
  run_calls (new_manager None max) cs = new_manager None max
  /\ snd (get (run_calls (new_manager None max) cs) q prepare) = (NO, "").
Proof.
  assert (R : run_calls (new_manager None max) cs = new_manager None max).
  { unfold run_calls. induction cs as [|c cs IH]; simpl; trivial.
    now rewrite disabled_call_inert. }
  rewrite R. split; trivial. now destruct prepare as [[|]|].
Qed.

(** ** Forced preparation *)

(** X4: with [prepare=True] a statement that has no name yet is prepared
    at once, whatever its tally and the threshold: the decision is
    [SHOULD] with the name of the counter, and once recorded the next
    decision for it is [YES] with that name. *)
Theorem forced_prepare (self : PrepareManager) (q : PostgresQuery) (t : Z) :
  prepare_threshold self = Some t ->
  (forall nm, od_get Key_eq_dec (key q) (_prepared self) <> Some (VBytes nm)) ->
  let forced := decide_and_record self q (Some true) in
  snd forced = (SHOULD, statement_name (_prepared_idx self))
  /\ _prepared_idx (fst forced) = _prepared_idx self + 1
  /\ snd (get (fst forced) q None) = (YES, statement_name (_prepared_idx self)).
Proof.
  intros T F. simpl. unfold decide_and_record.
  assert (G : get self q (Some true)
              = (set_prepared_idx (_prepared_idx self + 1) self,
                 (SHOULD, statement_name (_prepared_idx self)))).
  { unfold get. rewrite T.
    destruct (od_get Key_eq_dec (key q) (_prepared self)) as [[n|nm]|] eqn:E.
    - now rewrite orb_true_r.
    - now elim (F nm).
    - now rewrite orb_true_r. }
  rewrite G. simpl. split; trivial.
  pose proof (maybe_add_keeps_config
                (set_prepared_idx (_prepared_idx self + 1) self) q SHOULD
                (statement_name (_prepared_idx self))) as (T1 & _ & I1).
  split; [exact I1|].
  pose proof (maybe_add_same (set_prepared_idx (_prepared_idx self + 1) self) q
                SHOULD (statement_name (_prepared_idx self)) t T) as S.
  simpl in S, T1.
  unfold get. rewrite T1, T, S.
  destruct (od_get Key_eq_dec (key q) (_prepared self)) as [[n|nm]|] eqn:E; trivial.
  now elim (F nm).
Qed.

Lemma forced_prepare_witness :
  let self := mkManager (Some 5) 100 [(key q_select1, VInt 2)] 3 in
  let forced := decide_and_record self q_select1 (Some true) in
  snd forced = (SHOULD, statement_name 3)
  /\ _prepared_idx (fst forced) = 3 + 1
  /\ snd (get (fst forced) q_select1 None) = (YES, statement_name 3).
Proof.
  apply (forced_prepare (mkManager (Some 5) 100 [(key q_select1, VInt 2)] 3)
           q_select1 5).
  - reflexivity.
  - intros nm. vm_compute. discriminate.
Defined.

(** ** When [_should_discard] wipes *)

Lemma discard_loop_no_trigger self results :
  existsb discard_trigger results = false ->
  discard_loop self results = (self, None).
Proof.
  induction results as [|r rest IH]; simpl; trivial.
  unfold discard_trigger at 1.
  destruct (ExecStatus_eqb (status r) COMMAND_OK); simpl; auto.
  destruct (discard_tag (command_status r)); simpl; [discriminate|auto].
Qed.

Lemma should_discard_no_trigger self prep results :
  existsb discard_trigger results = false ->
  _should_discard self prep results = (self, None).
Proof.
  intros X. unfold _should_discard.
  destruct (negb (Z.of_nat (List.length (_prepared self)) =? 0)
            || Prepare_eqb prep SHOULD); trivial.
  now apply discard_loop_no_trigger.
Qed.

(** X5: [_should_discard] wipes the manager and returns "DEALLOCATE ALL"
    exactly when the cache is not empty or the decision was [SHOULD], some
    result is a successful command tagged "DROP ..." or "ROLLBACK", and the
    counter is not 0; in every other case it returns nothing and leaves
    the manager as it is.  Failed commands and results with tuples never
    wipe. *)
Theorem should_discard_exactly (self : PrepareManager) (prep : Prepare)
    (results : list PGresult) :
  (snd (_should_discard self prep results) = Some "DEALLOCATE ALL"
   <-> (_prepared self <> [] \/ prep = SHOULD)
       /\ existsb discard_trigger results = true
       /\ _prepared_idx self <> 0)
  /\ (snd (_should_discard self prep results) = None
      \/ snd (_should_discard self prep results) = Some "DEALLOCATE ALL")
  /\ (snd (_should_discard self prep results) = None ->
      fst (_should_discard self prep results) = self)
  /\ (snd (_should_discard self prep results) = Some "DEALLOCATE ALL" ->
      fst (_should_discard self prep results)
      = set_prepared_idx 0 (set_prepared [] self)).
Proof.
  destruct (existsb discard_trigger results) eqn:X.
  - unfold _should_discard.
    destruct (negb (Z.of_nat (List.length (_prepared self)) =? 0)
              || Prepare_eqb prep SHOULD) eqn:G.
    + assert (G' : _prepared self <> [] \/ prep = SHOULD).
      { apply orb_true_iff in G as [G|G].
        - left. intros E. rewrite E in G. discriminate.
        - right. now apply Prepare_eqb_eq. }
      rewrite (discard_loop_trigger _ _ X).
      destruct (clear_cases self) as [[Z E]|[N E]]; rewrite E; simpl.
      * repeat split; auto; try discriminate. intros (_ & _ & F). contradiction.
      * repeat split; auto; discriminate.
    + apply orb_false_iff in G as [G1 G2]. simpl.
      repeat split; auto; try discriminate.
      intros ([F|F] & _).
      * destruct (_prepared self); [congruence|discriminate].
      * apply Prepare_eqb_eq in F. congruence.
  - rewrite (should_discard_no_trigger _ _ _ X). simpl.
    repeat split; auto; try discriminate. intros (_ & F & _). discriminate.
Qed.

(** ** When [validate] raises, and what it returns *)

(** X6: [validate] raises [KeyError] exactly when nothing was wiped and
    either the results are unsuitable and the key is not in the cache, or
    the results are suitable, the cache is empty and [prepared_max] is
    negative. *)
Theorem validate_raises_exactly (self : PrepareManager) (k : Key)
    (prep : Prepare) (name : bytes) (results : list PGresult) :
  snd (validate self k prep name results) = RaiseKeyError
  <-> snd (_should_discard self prep results) = None
      /\ ((_check_results results = false
           /\ od_get Key_eq_dec k (_prepared self) = None)
          \/ (_check_results results = true
              /\ _prepared self = [] /\ prepared_max self < 0)).
Proof.
  unfold validate.
  destruct (should_discard_cases self prep results) as [E|[_ E]]; rewrite E; simpl.
  - destruct (_check_results results); simpl.
    + unfold _rotate, od_len.
      destruct (Z.leb_spec (Z.of_nat (List.length (_prepared self)))
                           (prepared_max self)) as [L|L]; simpl.
      * split; [discriminate|].
        intros [_ [[F _]|(_ & D & M)]]; [discriminate|].
        rewrite D in L. simpl in L. lia.
      * destruct (_prepared self) as [|[k' v'] rest] eqn:D; simpl.
        -- split; trivial. intros _. split; trivial. right.
           simpl in L. repeat split; trivial.
        -- split; [discriminate|].
           intros [_ [[F _]|(_ & F & _)]]; discriminate.
    + unfold od_del.
      destruct (od_get Key_eq_dec k (_prepared self)); simpl.
      * split; [discriminate|].
        intros [_ [[_ F]|[F _]]]; discriminate.
      * split; auto.
  - split; [discriminate|]. intros [F _]. discriminate.
Qed.

(** X7: a directive returned by [validate] is "DEALLOCATE ALL", the cache
    being empty and the counter 0 afterwards, or "DEALLOCATE" with the
    name held by the first entry of a cache over [prepared_max], that
    entry being the one removed. *)
Theorem validate_directive (self : PrepareManager) (k : Key) (prep : Prepare)
    (name : bytes) (results : list PGresult) (cmd : bytes) :
  snd (validate self k prep name results) = Return (Some cmd) ->
  (cmd = "DEALLOCATE ALL"
   /\ _prepared (fst (validate self k prep name results)) = []
   /\ _prepared_idx (fst (validate self k prep name results)) = 0)
  \/ (exists k0 nm rest,
        _prepared self = (k0, VBytes nm) :: rest
        /\ prepared_max self < od_len (_prepared self)
        /\ cmd = ("DEALLOCATE " ++ nm)%string
        /\ _prepared (fst (validate self k prep name results)) = rest).
Proof.
  unfold validate.
  destruct (should_discard_cases self prep results) as [E|[_ E]]; rewrite E; simpl.
  - destruct (negb (_check_results results)).
    + unfold od_del.
      destruct (od_get Key_eq_dec k (_prepared self)); simpl; discriminate.
    + unfold _rotate.
      destruct (Z.leb_spec (od_len (_prepared self)) (prepared_max self)) as [L|L];
        simpl; [discriminate|].
      destruct (_prepared self) as [|[k0 [n|nm]] rest] eqn:D; simpl;
        try discriminate.
      intros R. right. exists k0, nm, rest.
      repeat split; trivial. congruence.
  - intros R. left. repeat split. congruence.
Qed.

Lemma validate_directive_witness :
  let self := mkManager (Some 5) 1
                [(key q_select1, VBytes "_pg3_0"); (key q_select2, VInt 1)] 1 in
  let after := validate self (key q_select2) NO "" [mkResult TUPLES_OK None] in
  snd after = Return (Some "DEALLOCATE _pg3_0")
  /\ ((("DEALLOCATE _pg3_0" : bytes) = "DEALLOCATE ALL"
       /\ _prepared (fst after) = []
       /\ _prepared_idx (fst after) = 0)
      \/ (exists k0 nm rest,
            _prepared self = (k0, VBytes nm) :: rest
            /\ prepared_max self < od_len (_prepared self)
            /\ "DEALLOCATE _pg3_0" = ("DEALLOCATE " ++ nm)%string
            /\ _prepared (fst after) = rest)).
Proof.
  split; [reflexivity|].
  apply (validate_directive _ (key q_select2) NO "" [mkResult TUPLES_OK None]).
  reflexivity.
Defined.

(** ** A statement that fails *)

(** X8: a statement new to the cache whose results turn out unsuitable
    (several results, or a status that is neither [COMMAND_OK] nor
    [TUPLES_OK]) leaves no trace: [maybe_add_to_cache] followed by
    [validate] gives the manager back as it was, and returns nothing. *)
Theorem failed_statement_leaves_no_trace (self : PrepareManager)
    (q : PostgresQuery) (prep : Prepare) (name : bytes)
    (results : list PGresult) :
  prepare_threshold self <> None ->
  od_get Key_eq_dec (key q) (_prepared self) = None ->
  _check_results results = false ->
  existsb discard_trigger results = false ->
  validate (fst (maybe_add_to_cache self q prep name)) (key q) prep name results
  = (self, Return None).
Proof.
  intros T F C X. unfold validate.
  rewrite (should_discard_no_trigger _ _ _ X), C. simpl.
  unfold maybe_add_to_cache.
  destruct (prepare_threshold self) as [t|]; [|now elim T].
  rewrite F. simpl. unfold od_del. rewrite od_get_set_same.
  rewrite (od_set_absent Key_eq_dec _ _ _ F), od_remove_app.
  rewrite (od_remove_absent Key_eq_dec _ _ F). simpl.
  destruct (Key_eq_dec (key q) (key q)) as [_|N]; [|now elim N].
  rewrite app_nil_r. unfold set_prepared. simpl.
  f_equal. now destruct self.
Qed.

Lemma failed_statement_leaves_no_trace_witness :
  let self := mkManager (Some 5) 100 [(key q_select1, VBytes "_pg3_0")] 1 in
  validate (fst (maybe_add_to_cache self q_select2 NO "")) (key q_select2) NO ""
    [mkResult FATAL_ERROR None]
  = (self, Return None).
Proof.
  apply failed_statement_leaves_no_trace; try reflexivity.
  discriminate.
Defined.

(** ** The names in the cache *)

Lemma names_sound_among self self' :
  names_sound self ->
  names_among (_prepared self') (_prepared self) ->
  _prepared_idx self <= _prepared_idx self' ->
  names_sound self'.
Proof.
  intros (I & B & C) A L. repeat split.
  - lia.
  - intros k n G. destruct (B k n (A k n G)) as (i & R & E).
    exists i. split; [lia|exact E].
  - intros k1 k2 n G1 G2. exact (C k1 k2 n (A _ _ G1) (A _ _ G2)).
Qed.

Lemma maybe_add_names_among self q prep name :
  prep <> SHOULD ->
  names_among (_prepared (fst (maybe_add_to_cache self q prep name)))
              (_prepared self).
Proof.
  intros N k n G.
  assert (P : Prepare_eqb prep SHOULD = false) by (destruct prep; simpl; congruence).
  destruct (prepare_threshold self) as [t|] eqn:T.
  - destruct (Key_eq_dec (key q) k) as [E|E].
    + subst k. rewrite (maybe_add_same _ _ _ _ t T), P in G.
      destruct (od_get Key_eq_dec (key q) (_prepared self)) as [[m|nm]|];
        congruence.
    + now rewrite (maybe_add_other _ _ _ _ _ E) in G.
  - unfold maybe_add_to_cache in G. now rewrite T in G.
Qed.

Lemma validate_names_among self k prep name results :
  keys_unique self ->
  (_prepared (fst (validate self k prep name results)) = []
   /\ _prepared_idx (fst (validate self k prep name results)) = 0)
  \/ (_prepared_idx (fst (validate self k prep name results)) = _prepared_idx self
      /\ names_among (_prepared (fst (validate self k prep name results)))
                     (_prepared self)).
Proof.
  intros U. unfold validate.
  destruct (should_discard_cases self prep results) as [E|[_ E]]; rewrite E; simpl;
    [right|now left].
  destruct (negb (_check_results results)).
  - unfold od_del.
    destruct (od_get Key_eq_dec k (_prepared self)) eqn:G; simpl.
    + split; trivial. intros k' n' H.
      destruct (Key_eq_dec k' k) as [->|D].
      * now rewrite od_get_remove_same in H.
      * now rewrite od_get_remove_other in H.
    + split; trivial. now intros k' n'.
  - rewrite rotate_counter. split; trivial.
    unfold _rotate.
    destruct (od_len (_prepared self) <=? prepared_max self); [now intros k' n'|].
    unfold keys_unique in U.
    destruct (_prepared self) as [|[k0 v0] rest] eqn:D; simpl; rewrite ?D;
      [now intros k' n'|].
    intros k' n' H. now apply od_get_tail.
Qed.

Lemma reachable_unique self : reachable self -> keys_unique self.
Proof.
  induction 1 as [th mx|self q p R U|self q p R U
                 |self k prep name results R U|self R U].
  - constructor.
  - unfold decide_and_record.
    destruct (get self q p) as [self1 [prep name]] eqn:G. simpl.
    apply maybe_add_unique. unfold keys_unique.
    pose proof (get_keeps_config self q p) as (_ & _ & E).
    rewrite G in E. simpl in E. now rewrite E.
  - unfold keys_unique.
    pose proof (get_keeps_config self q p) as (_ & _ & E). now rewrite E.
  - now apply validate_unique.
  - destruct (clear_cases self) as [[_ E]|[_ E]]; rewrite E; trivial. constructor.
Qed.

Lemma names_sound_wiped self' :
  _prepared self' = [] -> _prepared_idx self' = 0 -> names_sound self'.
Proof.
  intros D I. unfold names_sound. rewrite D, I. simpl.
  repeat split; try lia; discriminate.
Qed.

(** X9: in a manager in use, every name in the cache is "_pg3_<i>" for an
    index i that the counter has passed, and no two fingerprints hold the
    same name. *)
Theorem cached_names_distinct (self : PrepareManager) :
  reachable self -> names_sound self.
Proof.
  induction 1 as [th mx|self q p R S|self q p R S
                 |self k prep name results R S|self R S].
  - now apply names_sound_wiped.
  - unfold decide_and_record.
    destruct (get self q p) as [self1 [prep name]] eqn:G. simpl.
    pose proof (maybe_add_keeps_config self1 q prep name) as (_ & _ & I2).
    pose proof (get_keeps_config self q p) as (T1 & _ & D1).
    destruct (get_counter self q p) as [(P & N & I1)|[P E]];
      rewrite G in *; simpl in *.
    + subst prep name. destruct S as (I & B & C).
      assert (W : forall k n,
                 od_get Key_eq_dec k
                   (_prepared (fst (maybe_add_to_cache self1 q SHOULD
                                      (statement_name (_prepared_idx self)))))
                 = Some (VBytes n) ->
                 od_get Key_eq_dec k (_prepared self) = Some (VBytes n)
                 \/ (k = key q /\ n = statement_name (_prepared_idx self))).
      { intros k n H.
        destruct (prepare_threshold self1) as [t|] eqn:T.
        - destruct (Key_eq_dec (key q) k) as [E|E].
          + subst k. rewrite (maybe_add_same _ _ _ _ t T), D1 in H. simpl in H.
            destruct (od_get Key_eq_dec (key q) (_prepared self)) as [[m|nm]|];
              injection H as <-; auto.
          + rewrite (maybe_add_other _ _ _ _ _ E), D1 in H. auto.
        - unfold maybe_add_to_cache in H. rewrite T in H. simpl in H.
          rewrite D1 in H. auto. }
      repeat split.
      * lia.
      * intros k n H. rewrite I2, I1.
        destruct (W k n H) as [O|[_ ->]].
        -- destruct (B k n O) as (i & Ri & Ei). exists i. split; [lia|exact Ei].
        -- exists (_prepared_idx self). split; [lia|reflexivity].
      * intros k1 k2 n H1 H2.
        destruct (W k1 n H1) as [O1|[K1 N1]], (W k2 n H2) as [O2|[K2 N2]].
        -- exact (C k1 k2 n O1 O2).
        -- destruct (B k1 n O1) as (i & Ri & Ei). rewrite N2 in Ei.
           apply statement_name_inj in Ei. lia.
        -- destruct (B k2 n O2) as (i & Ri & Ei). rewrite N1 in Ei.
           apply statement_name_inj in Ei. lia.
        -- congruence.
    + subst self1. apply (names_sound_among self); trivial; [|lia].
      now apply maybe_add_names_among.
  - pose proof (get_keeps_config self q p) as (_ & _ & D).
    apply (names_sound_among self); trivial.
    + rewrite D. now intros k n.
    + destruct (get_counter self q p) as [(_ & _ & E)|[_ E]]; rewrite E; lia.
  - destruct (validate_names_among self k prep name results (reachable_unique _ R))
      as [[D I]|[I A]].
    + now apply names_sound_wiped.
    + apply (names_sound_among self); trivial. lia.
  - destruct (clear_cases self) as [[_ E]|[_ E]]; rewrite E; trivial.
    now apply names_sound_wiped.
Qed.

Lemma cached_names_distinct_witness :
  names_sound
    (fst (decide_and_record
            (fst (decide_and_record (new_manager (Some 0) 100) q_select1 None))
            q_select2 None)).
Proof.
  apply cached_names_distinct. apply reach_decide, reach_decide, reach_new.
Defined.

(** ** A prepared statement stays prepared *)

Lemma maybe_add_named_stays self q prep name k nm :
  od_get Key_eq_dec k (_prepared self) = Some (VBytes nm) ->
  od_get Key_eq_dec k (_prepared (fst (maybe_add_to_cache self q prep name)))
  = Some (VBytes nm).
Proof.
  intros G.
  destruct (prepare_threshold self) as [t|] eqn:T.
  - destruct (Key_eq_dec (key q) k) as [E|E].
    + subst k. now rewrite (maybe_add_same _ _ _ _ t T), G.
    + now rewrite (maybe_add_other _ _ _ _ _ E).
  - unfold maybe_add_to_cache. now rewrite T.
Qed.

(** X10: while the manager only decides and records (no [validate], no
    [clear]), a fingerprint that holds a name keeps that name, whatever
    decision and name [maybe_add_to_cache] is given for it afterwards. *)
Theorem named_stays_named (self : PrepareManager) (cs : list call) (k : Key)
    (nm : bytes) :
  od_get Key_eq_dec k (_prepared self) = Some (VBytes nm) ->
  forallb is_decision cs = true ->
  od_get Key_eq_dec k (_prepared (run_calls self cs)) = Some (VBytes nm).
Proof.
  unfold run_calls. revert self.
  induction cs as [|c cs IH]; intros self G D; simpl in *; trivial.
  apply andb_true_iff in D as [D1 D2]. apply IH; trivial.
  destruct c as [q p|q prep name| |]; simpl in *; try discriminate.
  - pose proof (get_keeps_config self q p) as (_ & _ & E). now rewrite E.
  - now apply maybe_add_named_stays.
Qed.

Lemma named_stays_named_witness :
  let self := mkManager (Some 5) 100 [(key q_select1, VBytes "_pg3_0")] 1 in
  od_get Key_eq_dec (key q_select1)
    (_prepared (run_calls self
                  [CallGet q_select1 (Some true);
                   CallAdd q_select1 SHOULD "_pg3_7";
                   CallAdd q_select2 NO ""]))
  = Some (VBytes "_pg3_0").
Proof.
  apply named_stays_named; reflexivity.
Defined.

(** * Further properties of the adapters of text *)

(** ** Bytes of UTF-8 *)

Lemma Z_of_byte_range (a : ascii) : 0 <= Z_of_byte a < 256.
Proof.
  unfold Z_of_byte. pose proof (N_ascii_bounded a). lia.
Qed.

Lemma byte_of_Z_of_byte (a : ascii) : byte_of_Z (Z_of_byte a) = a.
Proof.
  unfold byte_of_Z, Z_of_byte. rewrite N2Z.id. apply ascii_N_embedding.
Qed.

Lemma list_of_bytes_app (l : list Z) (b : bytes) :
  Forall (fun x => 0 <= x < 256) l ->
  list_of_bytes (bytes_of_list l ++ b)%string = l ++ list_of_bytes b.
Proof.
  induction 1 as [|x l R _ IH]; simpl; trivial.
  now rewrite Z_of_byte_of_Z, IH.
Qed.

(** The bytes of a code point are bytes, and none is 0 unless the code
    point is. *)
Lemma utf8_encode_char_bytes (c : Z) (l : list Z) :
  utf8_encode_char c = Some l ->
  Forall (fun x => 0 <= x < 256) l /\ (c <> 0 -> ~ In 0 l).
Proof.
  unfold utf8_encode_char.
  destruct (Z.ltb_spec c 0); [discriminate|].
  destruct (Z.ltb_spec c 0x80).
  { intros E. assert (L : l = [c]) by congruence. subst l.
    split; [repeat constructor; lia|]. intros N [F|[]]. congruence. }
  destruct (Z.ltb_spec c 0x800).
  { intros E.
    assert (L : l = [0xC0 + c / 64; 0x80 + c mod 64]) by congruence. subst l.
    assert (Q : 0 <= c / 64 < 32 /\ 0 <= c mod 64 < 64)
      by (Z.div_mod_to_equations; lia).
    split; [repeat constructor; lia|].
    intros _ [F|[F|[]]]; lia. }
  destruct (Z.ltb_spec c 0x10000).
  { destruct (is_surrogate c); [discriminate|]. intros E.
    assert (L : l = [0xE0 + c / 4096; 0x80 + (c / 64) mod 64; 0x80 + c mod 64])
      by congruence. subst l.
    assert (Q : 0 <= c / 4096 < 16 /\ 0 <= (c / 64) mod 64 < 64
                /\ 0 <= c mod 64 < 64)
      by (Z.div_mod_to_equations; lia).
    split; [repeat constructor; lia|].
    intros _ [F|[F|[F|[]]]]; lia. }
  destruct (Z.ltb_spec c 0x110000); [|discriminate].
  intros E.
  assert (L : l = [0xF0 + c / 262144; 0x80 + (c / 4096) mod 64;
                   0x80 + (c / 64) mod 64; 0x80 + c mod 64]) by congruence.
  subst l.
  assert (Q : 0 <= c / 262144 < 5 /\ 0 <= (c / 4096) mod 64 < 64
              /\ 0 <= (c / 64) mod 64 < 64 /\ 0 <= c mod 64 < 64)
    by (Z.div_mod_to_equations; lia).
  split; [repeat constructor; lia|].
  intros _ [F|[F|[F|[F|[]]]]]; lia.
Qed.

Lemma utf8_encode_no_nul (s : str) :
  forall b, utf8_encode s = Some b -> ~ In 0 s -> ~ In 0 (list_of_bytes b).
Proof.
  induction s as [|c s IH]; simpl; intros b E N.
  - injection E as <-. simpl. tauto.
  - destruct (utf8_encode_char c) as [l|] eqn:C; [|discriminate].
    destruct (utf8_encode s) as [bs|]; [|discriminate].
    injection E as <-.
    destruct (utf8_encode_char_bytes c l C) as [R Z].
    rewrite (list_of_bytes_app l bs R). intros I.
    apply in_app_or in I as [I|I].
    + apply Z in I; trivial. intros ->. apply N. now left.
    + apply (IH bs eq_refl); trivial. intros F. apply N. now right.
Qed.

Lemma utf8_context (conn : option Connection) :
  conn = None \/ (exists c, conn = Some c /\ client_encoding c = "utf-8") ->
  _StrDumper.__init__ conn = _StrDumper.mk "utf-8"
  /\ TextLoader.__init__ conn = TextLoader.mk "utf-8".
Proof.
  intros [->|(c & -> & U)]; simpl; [auto|]. now rewrite U.
Qed.

(** X11: a string without NUL and without lone surrogates, dumped by
    [StrDumper] with no connection or on a "utf-8" connection, gives bytes
    none of which is 0, and [TextLoader] gives the string back from
    them. *)
Theorem text_dump_roundtrip (py : PythonCodecs) (conn : option Connection)
    (s : str)
    (kind : BufferKind) :
  conn = None \/ (exists c, conn = Some c /\ client_encoding c = "utf-8") ->
  ~ In 0 s ->
  forallb is_scalar s = true ->
  exists b,
    StrDumper.dump py (_StrDumper.__init__ conn) s = Ok b
    /\ ~ In 0 (list_of_bytes b)
    /\ TextLoader.load py (TextLoader.__init__ conn) (mkBuffer kind b)
       = Ok (LStr s).
Proof.
  intros C N V. destruct (utf8_context conn C) as [D L]. rewrite D, L.
  destruct (utf8_encode_scalar s V) as [b E]. exists b.
  assert (Z : existsb (Z.eqb 0) s = false).
  { destruct (existsb (Z.eqb 0) s) eqn:X; trivial.
    apply has_nul_In in X. contradiction. }
  unfold StrDumper.dump, TextLoader.load, str_encode, bytes_decode.
  rewrite Z. simpl. rewrite E, (utf8_roundtrip s b E).
  repeat split; [now apply (utf8_encode_no_nul s)|now destruct kind].
Qed.

Lemma text_dump_roundtrip_witness :
  exists b,
    StrDumper.dump no_more_codecs
      (_StrDumper.__init__ (Some (mkConnection "utf-8")))
      [104; 233; 0x20AC; 0x1F600] = Ok b
    /\ ~ In 0 (list_of_bytes b)
    /\ TextLoader.load no_more_codecs
         (TextLoader.__init__ (Some (mkConnection "utf-8")))
         (mkBuffer KMemoryview b)
       = Ok (LStr [104; 233; 0x20AC; 0x1F600]).
Proof.
  apply text_dump_roundtrip.
  - right. exists (mkConnection "utf-8"). split; reflexivity.
  - simpl. intros [F|[F|[F|[F|[]]]]]; discriminate F.
  - reflexivity.
Defined.

(** ** From bytes to text and back *)

Lemma is_cont_range (b : Z) : is_cont b = true -> 0x80 <= b < 0xC0.
Proof.
  unfold is_cont. intros H. apply andb_true_iff in H as [L U].
  apply Z.leb_le in L. apply Z.ltb_lt in U. lia.
Qed.

Lemma option_map_cons_inv (c : Z) (o : option str) (s : str) :
  option_map (cons c) o = Some s -> exists s', s = c :: s' /\ o = Some s'.
Proof.
  destruct o as [s'|]; simpl; [|discriminate].
  intros E. injection E as <-. eauto.
Qed.

(** What the decoder accepts at the head of the bytes is the encoding of
    the code point it returns. *)
Lemma utf8_decode_head (a0 : ascii) (r0 : bytes) (s : str) :
  utf8_decode (String a0 r0) = Some s ->
  exists c l r s',
    utf8_encode_char c = Some l
    /\ String a0 r0 = (bytes_of_list l ++ r)%string
    /\ s = c :: s'
    /\ utf8_decode r = Some s'.
Proof.
  rewrite utf8_decode_step. cbv zeta.
  pose proof (Z_of_byte_range a0) as R0.
  destruct (Z.ltb_spec (Z_of_byte a0) 0x80).
  { intros Hd. apply option_map_cons_inv in Hd as (s' & -> & D).
    exists (Z_of_byte a0), [Z_of_byte a0], r0, s'. repeat split; trivial.
    - unfold utf8_encode_char. settle_tests. reflexivity.
    - cbn [bytes_of_list append]. now rewrite byte_of_Z_of_byte. }
  destruct (Z.ltb_spec (Z_of_byte a0) 0xC2); [discriminate|].
  destruct (Z.ltb_spec (Z_of_byte a0) 0xE0).
  { destruct r0 as [|a1 r1]; [discriminate|].
    destruct (is_cont (Z_of_byte a1)) eqn:C1; [|discriminate].
    apply is_cont_range in C1.
    intros Hd. apply option_map_cons_inv in Hd as (s' & -> & D).
    set (c := (Z_of_byte a0 - 0xC0) * 64 + (Z_of_byte a1 - 0x80)) in *.
    exists c, [Z_of_byte a0; Z_of_byte a1], r1, s'. repeat split; trivial.
    - assert (Q : c / 64 = Z_of_byte a0 - 0xC0 /\ c mod 64 = Z_of_byte a1 - 0x80)
        by (unfold c; Z.div_mod_to_equations; lia).
      destruct Q as [Q1 Q2].
      assert (B : 0x80 <= c < 0x800) by (unfold c; lia).
      unfold utf8_encode_char. settle_tests. rewrite Q1, Q2.
      do 2 f_equal; [lia|f_equal; lia].
    - cbn [bytes_of_list append]. now rewrite !byte_of_Z_of_byte. }
  destruct (Z.ltb_spec (Z_of_byte a0) 0xF0).
  { destruct r0 as [|a1 [|a2 r2]]; try discriminate.
    set (c := (Z_of_byte a0 - 0xE0) * 4096 + (Z_of_byte a1 - 0x80) * 64
              + (Z_of_byte a2 - 0x80)) in *.
    destruct (is_cont (Z_of_byte a1)) eqn:C1; [|discriminate].
    destruct (is_cont (Z_of_byte a2)) eqn:C2; [|discriminate].
    destruct (Z.leb_spec 0x800 c) as [L|L]; [|discriminate].
    destruct (is_surrogate c) eqn:S; [discriminate|].
    apply is_cont_range in C1. apply is_cont_range in C2.
    cbn [andb negb].
    intros Hd. apply option_map_cons_inv in Hd as (s' & -> & D).
    exists c, [Z_of_byte a0; Z_of_byte a1; Z_of_byte a2], r2, s'.
    repeat split; trivial.
    - assert (Q : c / 4096 = Z_of_byte a0 - 0xE0
                  /\ (c / 64) mod 64 = Z_of_byte a1 - 0x80
                  /\ c mod 64 = Z_of_byte a2 - 0x80)
        by (unfold c; Z.div_mod_to_equations; lia).
      destruct Q as (Q1 & Q2 & Q3).
      assert (B : c < 0x10000) by (unfold c; lia).
      unfold utf8_encode_char. rewrite S. settle_tests. rewrite Q1, Q2, Q3.
      do 2 f_equal; [lia|f_equal; [lia|f_equal; lia]].
    - cbn [bytes_of_list append]. now rewrite !byte_of_Z_of_byte. }
  destruct (Z.ltb_spec (Z_of_byte a0) 0xF5); [|discriminate].
  destruct r0 as [|a1 [|a2 [|a3 r3]]]; try discriminate.
  set (c := (Z_of_byte a0 - 0xF0) * 262144 + (Z_of_byte a1 - 0x80) * 4096
            + (Z_of_byte a2 - 0x80) * 64 + (Z_of_byte a3 - 0x80)) in *.
  destruct (is_cont (Z_of_byte a1)) eqn:C1; [|discriminate].
  destruct (is_cont (Z_of_byte a2)) eqn:C2; [|discriminate].
  destruct (is_cont (Z_of_byte a3)) eqn:C3; [|discriminate].
  destruct (Z.leb_spec 0x10000 c) as [L|L]; [|discriminate].
  destruct (Z.ltb_spec c 0x110000) as [U|U]; [|discriminate].
  apply is_cont_range in C1. apply is_cont_range in C2. apply is_cont_range in C3.
  cbn [andb].
  intros Hd. apply option_map_cons_inv in Hd as (s' & -> & D).
  exists c, [Z_of_byte a0; Z_of_byte a1; Z_of_byte a2; Z_of_byte a3], r3, s'.
  repeat split; trivial.
  - assert (Q : c / 262144 = Z_of_byte a0 - 0xF0
                /\ (c / 4096) mod 64 = Z_of_byte a1 - 0x80
                /\ (c / 64) mod 64 = Z_of_byte a2 - 0x80
                /\ c mod 64 = Z_of_byte a3 - 0x80)
      by (unfold c; Z.div_mod_to_equations; lia).
    destruct Q as (Q1 & Q2 & Q3 & Q4).
    unfold utf8_encode_char. settle_tests. rewrite Q1, Q2, Q3, Q4.
    do 2 f_equal; [lia|f_equal; [lia|f_equal; [lia|f_equal; lia]]].
  - cbn [bytes_of_list append]. now rewrite !byte_of_Z_of_byte.
Qed.

(** Encoding inverts decoding. *)
Lemma utf8_decode_encode (s : str) :
  forall b, utf8_decode b = Some s -> utf8_encode s = Some b.
Proof.
  induction s as [|c s IH]; intros [|a0 r0] D.
  - reflexivity.
  - apply utf8_decode_head in D as (c & l & r & s' & _ & _ & F & _).
    discriminate F.
  - discriminate D.
  - apply utf8_decode_head in D as (c' & l & r & s' & C & B & F & D).
    injection F as <- <-. simpl.
    now rewrite C, (IH r D), B.
Qed.

(** Only strings of scalar values have UTF-8 bytes. *)
Lemma utf8_encode_only_scalar (s : str) :
  forall b, utf8_encode s = Some b -> forallb is_scalar s = true.
Proof.
  induction s as [|c s IH]; simpl; intros b E; trivial.
  destruct (utf8_encode_char c) as [l|] eqn:C; [|discriminate].
  destruct (utf8_encode s) as [bs|]; [|discriminate].
  rewrite (IH bs eq_refl), andb_true_r.
  unfold utf8_encode_char, is_surrogate in C. unfold is_scalar, is_surrogate.
  revert C. settle_tests; cbn [andb negb]; intros C;
    try discriminate C; reflexivity.
Qed.

(** X12: when [TextLoader.load], with no connection or on a "utf-8"
    connection, returns a string for some bytes, the string has no lone
    surrogate and [StrBinaryDumper.dump] gives exactly those bytes back
    for it: the loader accepts no second spelling of a string. *)
Theorem load_then_dump (py : PythonCodecs) (conn : option Connection)
    (data : Buffer) (s : str) :
  conn = None \/ (exists c, conn = Some c /\ client_encoding c = "utf-8") ->
  TextLoader.load py (TextLoader.__init__ conn) data = Ok (LStr s) ->
  forallb is_scalar s = true
  /\ StrBinaryDumper.dump py (_StrDumper.__init__ conn) s = Ok (buf_data data).
Proof.
  intros C. destruct (utf8_context conn C) as [D L]. rewrite D, L.
  unfold TextLoader.load, StrBinaryDumper.dump, bytes_decode, str_encode. simpl.
  destruct (utf8_decode (buf_data data)) as [s'|] eqn:U.
  - intros H. assert (E : s' = s) by (destruct (buf_kind data); congruence).
    subst s'. apply utf8_decode_encode in U. rewrite U.
    split; trivial. now apply (utf8_encode_only_scalar s (buf_data data)).
  - destruct (buf_kind data); discriminate.
Qed.

Lemma load_then_dump_witness :
  let data := mkBuffer KBytes (bytes_of_list [0x68; 0xC3; 0xA9; 0xE2; 0x82; 0xAC]) in
  forallb is_scalar [104; 233; 0x20AC] = true
  /\ StrBinaryDumper.dump no_more_codecs (_StrDumper.__init__ None)
       [104; 233; 0x20AC]
     = Ok (buf_data data).
Proof.
  apply (load_then_dump no_more_codecs None
           (mkBuffer KBytes (bytes_of_list [0x68; 0xC3; 0xA9; 0xE2; 0x82; 0xAC]))).
  - left. reflexivity.
  - reflexivity.
Defined.

(** ** Which error a dumper raises *)

(** X13: with no connection or on a "utf-8" connection, [StrDumper.dump]
    raises [DataError] for a string with a NUL, lone surrogates or not;
    for a string without NUL it raises [UnicodeEncodeError] when some code
    point is a lone surrogate and returns the bytes otherwise, as
    [StrBinaryDumper.dump] does for every string. *)
Theorem text_dump_outcome (py : PythonCodecs) (conn : option Connection)
    (s : str) :
  conn = None \/ (exists c, conn = Some c /\ client_encoding c = "utf-8") ->
  let dumper := _StrDumper.__init__ conn in
  (In 0 s -> StrDumper.dump py dumper s = Raise DataError)
  /\ (~ In 0 s -> StrDumper.dump py dumper s = StrBinaryDumper.dump py dumper s)
  /\ (forallb is_scalar s = false ->
      StrBinaryDumper.dump py dumper s = Raise UnicodeEncodeError)
  /\ (forallb is_scalar s = true ->
      exists b, StrBinaryDumper.dump py dumper s = Ok b).
Proof.
  intros C. destruct (utf8_context conn C) as [D _]. simpl. rewrite D.
  unfold StrDumper.dump, StrBinaryDumper.dump, str_encode. simpl.
  repeat split.
  - intros N. apply has_nul_In in N. now rewrite N.
  - intros N. destruct (existsb (Z.eqb 0) s) eqn:X; trivial.
    apply has_nul_In in X. contradiction.
  - intros V. destruct (utf8_encode s) as [b|] eqn:E; trivial.
    apply utf8_encode_only_scalar in E. congruence.
  - intros V. destruct (utf8_encode_scalar s V) as [b ->]. eauto.
Qed.

Lemma text_dump_outcome_witness :
  let dumper := _StrDumper.__init__ None in
  (In 0 [0; 0xD800] ->
   StrDumper.dump no_more_codecs dumper [0; 0xD800] = Raise DataError)
  /\ (~ In 0 [0; 0xD800] ->
      StrDumper.dump no_more_codecs dumper [0; 0xD800]
      = StrBinaryDumper.dump no_more_codecs dumper [0; 0xD800])
  /\ (forallb is_scalar [0; 0xD800] = false ->
      StrBinaryDumper.dump no_more_codecs dumper [0; 0xD800]
      = Raise UnicodeEncodeError)
  /\ (forallb is_scalar [0; 0xD800] = true ->
      exists b, StrBinaryDumper.dump no_more_codecs dumper [0; 0xD800] = Ok b).
Proof.
  apply (text_dump_outcome no_more_codecs None [0; 0xD800]). left. reflexivity.
Defined.

(** ** The strings of the faker *)

Lemma skipped_surrogate (c : Z) : Faker.skipped c = is_surrogate c.
Proof.
  unfold Faker.skipped, is_surrogate. settle_tests; reflexivity.
Qed.

(** What the loop has collected and what it returns. *)
Lemma make_str_loop_spec (draws : list Z) (length : Z) :
  Forall Faker.drawable draws ->
  forall rv,
    Forall (fun c => c <> 0 /\ is_scalar c = true) rv ->
    length - Z.of_nat (List.length rv) <= Faker.kept draws ->
    exists s,
      Faker.make_str_loop draws length rv = Some s
      /\ Z.of_nat (List.length s) = Z.max length (Z.of_nat (List.length rv))
      /\ Forall (fun c => c <> 0 /\ is_scalar c = true) s.
Proof.
  unfold Faker.kept.
  induction 1 as [|c draws Hc Hd IH]; intros rv R L; simpl in *.
  - destruct (Z.ltb_spec (Z.of_nat (List.length rv)) length); [lia|].
    exists rv. repeat split; trivial. lia.
  - destruct (Z.ltb_spec (Z.of_nat (List.length rv)) length) as [T|T].
    + destruct (negb (Faker.skipped c)) eqn:S; simpl in L.
      * destruct (IH (rv ++ [c])) as (s & E & N & F).
        -- apply Forall_app. split; trivial. constructor; [|constructor].
           unfold Faker.drawable in Hc. split; [lia|].
           unfold is_scalar. rewrite <- skipped_surrogate, S.
           settle_tests. reflexivity.
        -- rewrite length_app. simpl. lia.
        -- exists s. repeat split; trivial.
           rewrite N, length_app. simpl. lia.
      * destruct (IH rv R L) as (s & E & N & F). eauto.
    + exists rv. repeat split; trivial. lia.
Qed.

(** X14: when the values drawn are in the ranges of [randrange(1, 128)]
    and [randrange(1, 0x110000)] and enough of them are not surrogates,
    [Faker.make_str] returns a string of the length asked for (of the
    length drawn, below [str_max_length], when 0 is asked for), without
    NUL and without surrogates; [StrDumper] dumps it without error and
    [TextLoader] gives it back. *)
Theorem faker_strings_dumpable (py : PythonCodecs) (length drawn : Z)
    (draws : list Z) :
  0 <= length ->
  0 <= drawn < Faker.str_max_length ->
  Forall Faker.drawable draws ->
  (if length =? 0 then drawn else length) <= Faker.kept draws ->
  exists s b,
    Faker.make_str length drawn draws = Some s
    /\ Z.of_nat (List.length s) = (if length =? 0 then drawn else length)
    /\ ~ In 0 s
    /\ forallb is_scalar s = true
    /\ StrDumper.dump py (_StrDumper.__init__ None) s = Ok b
    /\ TextLoader.load py (TextLoader.__init__ None) (mkBuffer KBytes b)
       = Ok (LStr s).
Proof.
  intros Hl Hd D K. unfold Faker.make_str.
  set (n := if length =? 0 then drawn else length) in *.
  assert (Hn : 0 <= n) by (unfold n; destruct (length =? 0); lia).
  destruct (make_str_loop_spec draws n D []) as (s & E & N & F).
  - constructor.
  - simpl. lia.
  - simpl in N.
    assert (Z : ~ In 0 s).
    { intros I. rewrite Forall_forall in F. destruct (F 0 I) as [X _]. congruence. }
    assert (V : forallb is_scalar s = true).
    { apply forallb_forall. intros c I. rewrite Forall_forall in F.
      now destruct (F c I). }
    assert (X : existsb (Z.eqb 0) s = false).
    { destruct (existsb (Z.eqb 0) s) eqn:X; trivial.
      apply has_nul_In in X. contradiction. }
    destruct (utf8_encode_scalar s V) as [b U].
    exists s, b. repeat split; trivial; try lia.
    + unfold StrDumper.dump, str_encode. rewrite X. simpl. now rewrite U.
    + unfold TextLoader.load, bytes_decode. simpl.
      now rewrite (utf8_roundtrip s b U).
Qed.

Lemma faker_strings_dumpable_witness :
  exists s b,
    Faker.make_str 0 3 [0x61; 0xD800; 0x20AC; 0xDFFF; 0x1F600; 0x62] = Some s
    /\ Z.of_nat (List.length s) = 3
    /\ ~ In 0 s
    /\ forallb is_scalar s = true
    /\ StrDumper.dump no_more_codecs (_StrDumper.__init__ None) s = Ok b
    /\ TextLoader.load no_more_codecs (TextLoader.__init__ None)
         (mkBuffer KBytes b)
       = Ok (LStr s).
Proof.
  apply (faker_strings_dumpable no_more_codecs 0 3
           [0x61; 0xD800; 0x20AC; 0xDFFF; 0x1F600; 0x62]).
  - lia.
  - unfold Faker.str_max_length. lia.
  - unfold Faker.drawable. repeat constructor; lia.
  - vm_compute. discriminate.
Defined.
